(** * ImageResize: the selection and overlay lifecycle of the Quill image
      resize module (src/ImageResize.js)

    The class [ImageResize] keeps three mutable fields ([img], [overlay],
    [modules]), mutates the DOM around the editor (children of the
    editor's container, event listeners, inline styles), calls into the
    host editor and fans lifecycle calls out to pluggable modules.  The
    embedding below is a state-and-exception monad over one record holding
    all of that; every method of the class is a computation in it. *)

From Stdlib Require Import Ascii String ZArith.
From stdpp Require Import base strings gmap list pretty.

Set Default Proof Using "Type".

(** ** JavaScript numbers

    The overlay geometry is computed on JavaScript numbers.  Only
    subtraction, addition, the constant 1 and the conversion to a string of
    a template literal are used, so the development is generic in them. *)

Class JsNumber (num : Type) := {
  num_sub : num → num → num;
  num_add : num → num → num;
  num_one : num;
  num_to_string : num → string;
}.

(** Integral pixel values: exact integers, printed in decimal. *)
#[global] Instance Z_JsNumber : JsNumber Z := {|
  num_sub := Z.sub;
  num_add := Z.add;
  num_one := 1%Z;
  num_to_string := pretty;
|}.

(** ** DOM data *)

(** An element handle: its identity and its [tagName], which is absent on
    targets that are not elements. *)
Record Element := { el_id : nat; el_tag : option string }.

#[global] Instance Element_eq_dec : EqDecision Element.
Proof. solve_decision. Defined.

(** Text is held as its UTF-8 bytes.

    [tagName.toUpperCase() === "IMG"].  [String.prototype.toUpperCase]
    works character by character, whatever the locale: the characters it
    maps to I are I, i and the dotless i (U+0131, the bytes C4 B1), the
    ones it maps to M are M and m, the ones it maps to G are G and g, and
    it maps no character to several letters of IMG at once. *)
Definition either (c a b : ascii) : bool := Ascii.eqb c a || Ascii.eqb c b.

Definition upper_is_MG (s : string) : bool :=
  match s with
  | String m (String g EmptyString) => either m "M" "m" && either g "G" "g"
  | _ => false
  end.

Definition toUpperCase_is_IMG (tagName : string) : bool :=
  match tagName with
  | String c s =>
      if either c "I" "i" then upper_is_MG s
      else if Ascii.eqb c (ascii_of_N 196)
      then match s with
           | String c' s' => Ascii.eqb c' (ascii_of_N 177) && upper_is_MG s'
           | EmptyString => false
           end
      else false
  | EmptyString => false
  end.

(** Nodes that can be children of the editor's container
    ([quill.root.parentNode]). *)
Inductive Node := NRoot | NContainer | NOverlay (id : nat).

#[global] Instance Node_eq_dec : EqDecision Node.
Proof. solve_decision. Defined.

Inductive Target := Window | Root | Container.
Inductive Handler :=
  HandleClickInside | HandleClickOutside | CheckImage.

#[global] Instance Target_eq_dec : EqDecision Target.
Proof. solve_decision. Defined.
#[global] Instance Handler_eq_dec : EqDecision Handler.
Proof. solve_decision. Defined.

(** One registration made by [addEventListener]. *)
Record Listener := {
  l_target : Target;
  l_type : string;
  l_handler : Handler;
  l_capture : bool;
}.

#[global] Instance Listener_eq_dec : EqDecision Listener.
Proof. solve_decision. Defined.

Record ClickEvent := {
  ce_target : option Element;
  (** the answer of [quill.root.contains(evt.target)] *)
  ce_in_root : bool;
}.

Record KeyEvent := {
  keyCode : Z;
  key : string;
  ctrlKey : bool;
  metaKey : bool;
}.

(** ** Modules *)

Inductive Ctor := DisplaySize | Toolbar | Resize | Custom (n : nat).

#[global] Instance Ctor_eq_dec : EqDecision Ctor.
Proof. solve_decision. Defined.

(** An entry of [options.modules]: a name or a constructor. *)
Inductive ModuleClass := ByName (name : string) | ByCtor (c : Ctor).

(** A constructed module: its class and its object identity.  The module
    classes live outside this file; what the instance does with a module
    are the three lifecycle calls, which are recorded in the trace. *)
Record Module := { mod_ctor : Ctor; mod_id : nat }.

#[global] Instance Module_eq_dec : EqDecision Module.
Proof. solve_decision. Defined.

(** [const knownModules = { DisplaySize, Toolbar, Resize }] *)
Definition knownModules : gmap string Ctor :=
  <["DisplaySize" := DisplaySize]>
    (<["Toolbar" := Toolbar]> (<["Resize" := Resize]> ∅)).

(** [knownModules[ModuleClass] || ModuleClass], as something [new] can be
    applied to: a name that is not registered is a string, not a
    constructor, and neither are the values that the object literal
    inherits from [Object.prototype] under the names of its methods.  One
    inherited name is left out of account: [constructor] is [Object], and
    [new Object(this)] is the instance itself, which has none of the three
    lifecycle methods that every constructor is taken to give its objects
    here. *)
Definition resolve (c : ModuleClass) : option Ctor :=
  match c with
  | ByName name => knownModules !! name
  | ByCtor c => Some c
  end.

(** ** Observable effects *)

Inductive Effect :=
| OnCreate (m : Module)
| OnUpdate (m : Module)
| OnDestroy (m : Module)
| Alert (msg : string)
| PreventDefault
| UnhandledRejection.

#[global] Instance Effect_eq_dec : EqDecision Effect.
Proof. solve_decision. Defined.

Inductive JsError :=
| TypeError (msg : string)
| NotFoundError
| CanvasError
| Rejection.

Inductive Completion (A : Type) :=
| Normal (a : A)
| Throw (e : JsError).
Arguments Normal {A} a.
Arguments Throw {A} e.

(** The host editor: its text selection and the image embeds of its
    document. *)
Record Host := {
  quill_selection : option (nat * nat);
  document : list Element;
}.

Record Options := {
  opt_modules : option (list ModuleClass);
  opt_overlayStyles : gmap string string;
}.

(** [DefaultOptions] is imported from a file that is not part of the
    sources at hand; it is a parameter of the constructor. *)
Record Defaults := {
  def_modules : list ModuleClass;
  def_overlayStyles : gmap string string;
}.

Record Overlay := { ov_id : nat; ov_style : gmap string string }.

Section Resizer.
Context {num : Type} `{!JsNumber num}.

Record DOMRect := {
  rect_left : num;
  rect_top : num;
  rect_width : num;
  rect_height : num;
}.

(** What [getBoundingClientRect] and the scroll offsets currently answer. *)
Record Layout := {
  img_rect : Element → DOMRect;
  container_rect : DOMRect;
  scrollLeft : num;
  scrollTop : num;
}.

Record Dom := {
  children : list Node;
  listeners : list Listener;
  root_style : gmap string string;
  html_style : gmap string string;
  container_position : string;
  container_tabIndex : option Z;
  focus : option Node;
  layout : Layout;
}.

Record State := {
  (* this.moduleClasses, this.options.overlayStyles *)
  moduleClasses : list ModuleClass;
  overlayStyles : gmap string string;
  (* this.img, this.overlay, this.modules *)
  img : option Element;
  overlay : option Overlay;
  modules : list Module;
  dom : Dom;
  host : Host;
  (* object identities handed out so far *)
  next_id : nat;
  trace : list Effect;
}.

Definition set_img (v : option Element) (st : State) : State :=
  {| moduleClasses := moduleClasses st; overlayStyles := overlayStyles st;
     img := v; overlay := overlay st; modules := modules st;
     dom := dom st; host := host st; next_id := next_id st;
     trace := trace st |}.

Definition set_overlay (v : option Overlay) (st : State) : State :=
  {| moduleClasses := moduleClasses st; overlayStyles := overlayStyles st;
     img := img st; overlay := v; modules := modules st;
     dom := dom st; host := host st; next_id := next_id st;
     trace := trace st |}.

Definition set_modules (v : list Module) (st : State) : State :=
  {| moduleClasses := moduleClasses st; overlayStyles := overlayStyles st;
     img := img st; overlay := overlay st; modules := v;
     dom := dom st; host := host st; next_id := next_id st;
     trace := trace st |}.

Definition set_dom (v : Dom) (st : State) : State :=
  {| moduleClasses := moduleClasses st; overlayStyles := overlayStyles st;
     img := img st; overlay := overlay st; modules := modules st;
     dom := v; host := host st; next_id := next_id st;
     trace := trace st |}.

Definition set_host (v : Host) (st : State) : State :=
  {| moduleClasses := moduleClasses st; overlayStyles := overlayStyles st;
     img := img st; overlay := overlay st; modules := modules st;
     dom := dom st; host := v; next_id := next_id st;
     trace := trace st |}.

Definition set_next_id (v : nat) (st : State) : State :=
  {| moduleClasses := moduleClasses st; overlayStyles := overlayStyles st;
     img := img st; overlay := overlay st; modules := modules st;
     dom := dom st; host := host st; next_id := v;
     trace := trace st |}.

Definition set_trace (v : list Effect) (st : State) : State :=
  {| moduleClasses := moduleClasses st; overlayStyles := overlayStyles st;
     img := img st; overlay := overlay st; modules := modules st;
     dom := dom st; host := host st; next_id := next_id st;
     trace := v |}.

Definition set_children (v : list Node) (d : Dom) : Dom :=
  {| children := v; listeners := listeners d; root_style := root_style d;
     html_style := html_style d; container_position := container_position d;
     container_tabIndex := container_tabIndex d; focus := focus d;
     layout := layout d |}.

Definition set_listeners (v : list Listener) (d : Dom) : Dom :=
  {| children := children d; listeners := v; root_style := root_style d;
     html_style := html_style d; container_position := container_position d;
     container_tabIndex := container_tabIndex d; focus := focus d;
     layout := layout d |}.

Definition set_user_select_styles (r h : gmap string string) (d : Dom) : Dom :=
  {| children := children d; listeners := listeners d; root_style := r;
     html_style := h; container_position := container_position d;
     container_tabIndex := container_tabIndex d; focus := focus d;
     layout := layout d |}.

Definition set_container_position (v : string) (d : Dom) : Dom :=
  {| children := children d; listeners := listeners d;
     root_style := root_style d; html_style := html_style d;
     container_position := v;
     container_tabIndex := container_tabIndex d; focus := focus d;
     layout := layout d |}.

Definition set_tabIndex (v : option Z) (d : Dom) : Dom :=
  {| children := children d; listeners := listeners d;
     root_style := root_style d; html_style := html_style d;
     container_position := container_position d;
     container_tabIndex := v; focus := focus d; layout := layout d |}.

Definition set_focus (v : option Node) (d : Dom) : Dom :=
  {| children := children d; listeners := listeners d;
     root_style := root_style d; html_style := html_style d;
     container_position := container_position d;
     container_tabIndex := container_tabIndex d; focus := v;
     layout := layout d |}.

Definition set_layout (v : Layout) (d : Dom) : Dom :=
  {| children := children d; listeners := listeners d;
     root_style := root_style d; html_style := html_style d;
     container_position := container_position d;
     container_tabIndex := container_tabIndex d; focus := focus d;
     layout := v |}.

(** ** The monad: state, and exceptions that keep the state reached *)

Definition M (A : Type) : Type := State → Completion A * State.

#[global] Instance M_ret : MRet M := λ A a st, (Normal a, st).
#[global] Instance M_bind : MBind M := λ A B f m st,
  match m st with
  | (Normal a, st') => f a st'
  | (Throw e, st') => (Throw e, st')
  end.

Definition throw {A} (e : JsError) : M A := λ st, (Throw e, st).
Definition gets {A} (f : State → A) : M A := λ st, (Normal (f st), st).
Definition modify (f : State → State) : M unit := λ st, (Normal tt, f st).
Definition modify_dom (f : Dom → Dom) : M unit :=
  modify (λ st, set_dom (f (dom st)) st).
Definition emit (e : Effect) : M unit :=
  modify (λ st, set_trace (trace st ++ [e]) st).
Definition fresh : M nat :=
  λ st, (Normal (next_id st), set_next_id (S (next_id st)) st).

(** [Array.prototype.forEach] *)
Fixpoint forEach {A} (f : A → M unit) (l : list A) : M unit :=
  match l with
  | [] => mret tt
  | x :: l' => f x;; forEach f l'
  end.

Definition state_of {A} (r : Completion A * State) : State := r.2.

(** ** DOM primitives *)

(** A registration that is already present is not added again. *)
Definition add_listener (l : Listener) (ls : list Listener) : list Listener :=
  if decide (l ∈ ls) then ls else ls ++ [l].

Definition addEventListener
    (t : Target) (ty : string) (h : Handler) (capture : bool) : M unit :=
  modify_dom (λ d,
    set_listeners
      (add_listener {| l_target := t; l_type := ty; l_handler := h;
                       l_capture := capture |} (listeners d)) d).

Definition removeEventListener
    (t : Target) (ty : string) (h : Handler) (capture : bool) : M unit :=
  modify_dom (λ d,
    let l := {| l_target := t; l_type := ty; l_handler := h;
                l_capture := capture |} in
    set_listeners (filter (λ l', l' ≠ l) (listeners d)) d).

Definition appendChild (n : Node) : M unit :=
  modify_dom (λ d,
    set_children (filter (λ c, c ≠ n) (children d) ++ [n]) d).

(** [removeChild] raises [NotFoundError] on a node that is not a child. *)
Definition removeChild (n : Node) : M unit :=
  d ← gets dom;
  if decide (n ∈ children d)
  then modify_dom (set_children (filter (λ c, c ≠ n) (children d)))
  else throw NotFoundError.

(** ** The methods of [ImageResize] *)

Definition constructor
    (options : Options) (DefaultOptions : Defaults) (d : Dom) (h : Host)
    : State :=
  let d1 := set_listeners
              (add_listener {| l_target := Root; l_type := "click";
                               l_handler := HandleClickInside;
                               l_capture := false |} (listeners d)) d in
  let d2 := set_container_position
              (if String.eqb (container_position d1) "" then "relative"
               else container_position d1) d1 in
  {| moduleClasses := match opt_modules options with
                      | Some moduleClasses => moduleClasses
                      | None => def_modules DefaultOptions
                      end;
     overlayStyles :=
       opt_overlayStyles options ∪ def_overlayStyles DefaultOptions;
     img := None; overlay := None; modules := [];
     dom := d2; host := h; next_id := 0; trace := [] |}.

Definition removeModules : M unit :=
  ms ← gets modules;
  forEach (λ module, emit (OnDestroy module)) ms;;
  modify (set_modules []).

Definition px (n : num) : string := num_to_string n +:+ "px".

Definition repositionElements : M unit :=
  o ← gets overlay;
  i ← gets img;
  match o, i with
  | Some ov, Some im =>
      parent ← gets (λ st, layout (dom st));
      let imgRect := img_rect parent im in
      let containerRect := container_rect parent in
      let style :=
        <["height" := px (rect_height imgRect)]>
          (<["width" := px (rect_width imgRect)]>
            (<["top" := px (num_add (num_sub (rect_top imgRect)
                                             (rect_top containerRect))
                                    (scrollTop parent))]>
              (<["left" := px (num_add
                                 (num_sub (num_sub (rect_left imgRect)
                                                   (rect_left containerRect))
                                          num_one)
                                 (scrollLeft parent))]>
                (ov_style ov)))) in
      modify (set_overlay (Some {| ov_id := ov_id ov; ov_style := style |}))
  | _, _ => mret tt
  end.

Definition onUpdate : M unit :=
  repositionElements;;
  ms ← gets modules;
  forEach (λ module, emit (OnUpdate module)) ms.

(** [this.moduleClasses.map(ModuleClass => new (...)(this))] *)
Fixpoint construct (cs : list ModuleClass) : M (list Module) :=
  match cs with
  | [] => mret []
  | ModuleClass :: cs' =>
      match resolve ModuleClass with
      | Some c =>
          id ← fresh;
          ms ← construct cs';
          mret ({| mod_ctor := c; mod_id := id |} :: ms)
      | None => throw (TypeError "ModuleClass is not a constructor")
      end
  end.

Definition initializeModules : M unit :=
  removeModules;;
  cs ← gets moduleClasses;
  ms ← construct cs;
  modify (set_modules ms);;
  ms' ← gets modules;
  forEach (λ module, emit (OnCreate module)) ms';;
  onUpdate.

Definition setUserSelect (value : string) : M unit :=
  forEach (λ prop,
      modify_dom (λ d,
        set_user_select_styles (<[prop := value]> (root_style d))
                               (<[prop := value]> (html_style d)) d))
    ["userSelect"; "mozUserSelect"; "webkitUserSelect"; "msUserSelect"].

Definition hideOverlay : M unit :=
  o ← gets overlay;
  match o with
  | None => mret tt
  | Some ov =>
      removeChild (NOverlay (ov_id ov));;
      removeEventListener Container "keyup" CheckImage false;;
      modify (set_overlay None);;
      setUserSelect ""
  end.

Definition showOverlay : M unit :=
  o ← gets overlay;
  (match o with Some _ => hideOverlay | None => mret tt end);;
  modify (λ st, set_host {| quill_selection := None;
                            document := document (host st) |} st);;
  setUserSelect "none";;
  addEventListener Window "click" HandleClickOutside true;;
  id ← fresh;
  styles ← gets overlayStyles;
  modify (set_overlay (Some {| ov_id := id; ov_style := styles ∪ ∅ |}));;
  modify_dom (set_tabIndex (Some 0%Z));;
  addEventListener Container "keyup" CheckImage false;;
  modify_dom (set_focus (Some NContainer));;
  appendChild (NOverlay id);;
  repositionElements.

Definition show (i : Element) : M unit :=
  modify (set_img (Some i));;
  showOverlay;;
  initializeModules.

Definition hide : M unit :=
  hideOverlay;;
  removeModules;;
  modify (set_img None).

(** [evt.target && evt.target.tagName &&
     evt.target.tagName.toUpperCase() === "IMG"] *)
Definition image_target (evt : ClickEvent) : option Element :=
  match ce_target evt with
  | Some target =>
      match el_tag target with
      | Some tagName =>
          if negb (String.eqb tagName "") && toUpperCase_is_IMG tagName
          then Some target else None
      | None => None
      end
  | None => None
  end.

Definition handleClickInsideQuillInstance (evt : ClickEvent) : M unit :=
  hide;;
  match image_target evt with
  | Some target => show target
  | None => mret tt
  end.

Definition handleClickOutsideQuillInstance (evt : ClickEvent) : M unit :=
  if negb (ce_in_root evt) then hide else mret tt.

(** [window.Quill.find(img).deleteAt(0)], with [window.Quill] the class of
    the host editor: [find] answers [null] for anything that is not a node
    of the document, and the call on it raises. *)
Definition deleteImage (i : option Element) : M unit :=
  h ← gets host;
  match i with
  | Some im =>
      if decide (im ∈ document h)
      then modify (set_host
             {| quill_selection := quill_selection h;
                document := filter (λ e, e ≠ im) (document h) |})
      else throw (TypeError "Cannot read properties of null (reading 'deleteAt')")
  | None =>
      throw (TypeError "Cannot read properties of null (reading 'deleteAt')")
  end.

(** ** Clipboard export and the keyup handler *)

(** What the platform does with one export: the canvas calls made before
    the promise exists may raise; [toBlob] may raise inside the promise
    executor; the [toBlob] callback may raise before the clipboard write is
    started (no blob, no [ClipboardItem], no [navigator.clipboard]); the
    clipboard write is fulfilled or rejected. *)
Inductive ExportBehaviour :=
| DrawThrows
| ToBlobThrows
| CallbackThrows
| WriteFulfilled
| WriteRejected (name message : string).

(** The promise returned by [copyImageToClipboard], as its caller will
    eventually see it. *)
Inductive Promise :=
| Fulfilled (v : bool)
| Rejected
| Pending.

(** The effects of the callbacks are recorded at the call: the alert of the
    [catch] branch, and the rejection of the async [toBlob] callback, which
    nothing handles and which leaves the outer promise pending. *)
Definition copyImageToClipboard (b : ExportBehaviour) : M Promise :=
  i ← gets img;
  match i with
  | None =>
      throw (TypeError
        "Cannot read properties of undefined (reading 'naturalWidth')")
  | Some _ =>
      match b with
      | DrawThrows => throw CanvasError
      | ToBlobThrows => mret Rejected
      | CallbackThrows => emit UnhandledRejection;; mret Pending
      | WriteFulfilled => mret (Fulfilled true)
      | WriteRejected name message =>
          emit (Alert ("Error adding image to clipboard: " +:+ name
                       +:+ " -> " +:+ message));;
          mret Rejected
      end
  end.

(** A promise that is dropped by its caller: its rejection has no
    handler. *)
Definition drop (p : Promise) : M unit :=
  match p with
  | Rejected => emit UnhandledRejection
  | _ => mret tt
  end.

Definition is_delete_key (evt : KeyEvent) : bool :=
  ((keyCode evt =? 46) || (keyCode evt =? 8))%Z.

Definition is_chord (evt : KeyEvent) (k : string) : bool :=
  (ctrlKey evt || metaKey evt) && String.eqb (key evt) k.

(** Where the async function [checkImage] stands when it gives control
    back: finished, or suspended at its [await]. *)
Inductive Suspension :=
| Finished
| AwaitExport (p : Promise).

(** [checkImage] up to its [await]. *)
Definition checkImage (evt : KeyEvent) (b : ExportBehaviour)
    : M Suspension :=
  i ← gets img;
  match i with
  | None => mret Finished
  | Some _ =>
      (if is_delete_key evt
       then (i' ← gets img; deleteImage i');; hide
       else mret tt);;
      (if is_chord evt "c"
       then emit PreventDefault;; p ← copyImageToClipboard b; drop p
       else mret tt);;
      if is_chord evt "x"
      then emit PreventDefault;;
           p ← copyImageToClipboard b;
           mret (AwaitExport p)
      else mret Finished
  end.

(** [checkImage] from its [await] on, once the promise is settled; on a
    promise that stays pending the function never gets there. *)
Definition checkImage_resume (p : Promise) : M unit :=
  match p with
  | Fulfilled imageCopied =>
      if imageCopied
      then (i ← gets img; deleteImage i);; hide
      else mret tt
  | Rejected => throw Rejection
  | Pending => mret tt
  end.

(** A call of an async function whose promise the caller ignores, as an
    event listener does: an exception inside rejects that promise, and
    nothing handles the rejection. *)
Definition async {A} (m : M A) : M unit :=
  λ st, match m st with
        | (Normal _, st') => (Normal tt, st')
        | (Throw _, st') =>
            (Normal tt, set_trace (trace st' ++ [UnhandledRejection]) st')
        end.

(** One keyup event carried through to the end of the handler, with no
    other event in between; a pending promise leaves it suspended for
    good. *)
Definition keyup (evt : KeyEvent) (b : ExportBehaviour) : M unit :=
  async (s ← checkImage evt b;
         match s with
         | Finished => mret tt
         | AwaitExport Pending => mret tt
         | AwaitExport p => checkImage_resume p
         end).

(** ** The event loop *)

Inductive Event :=
| Select (i : Element)
| Deselect
| ClickInside (evt : ClickEvent)
| ClickWindow (evt : ClickEvent)
| KeyUp (evt : KeyEvent) (b : ExportBehaviour)
| Resume (p : Promise)
| RequestUpdate
| Relayout (l : Layout)
| HostEdit (doc : list Element).

(** The state after an event: a call of [show] or [hide] from outside, a
    listener that fires, a module asking for an update, a change of the
    page or of the host document around the instance.  The continuation of
    a cut may run at any later time, so [Resume] is an event of its own.
    A handler may be run whether or not its listener is installed, which
    only adds states. *)
Definition step (ev : Event) (st : State) : State :=
  match ev with
  | Select i => state_of (show i st)
  | Deselect => state_of (hide st)
  | ClickInside evt => state_of (handleClickInsideQuillInstance evt st)
  | ClickWindow evt => state_of (handleClickOutsideQuillInstance evt st)
  | KeyUp evt b => state_of (async (checkImage evt b) st)
  | Resume p => state_of (async (checkImage_resume p) st)
  | RequestUpdate => state_of (onUpdate st)
  | Relayout l => set_dom (set_layout l (dom st)) st
  | HostEdit doc =>
      set_host {| quill_selection := quill_selection (host st);
                  document := doc |} st
  end.

Definition is_overlay_node (n : Node) : bool :=
  match n with NOverlay _ => true | _ => false end.

(** The overlay elements attached to the container. *)
Definition attached_overlays (st : State) : list Node :=
  filter (λ n, is_overlay_node n = true) (children (dom st)).

(** What the surroundings do: the images that get selected are images of
    the host document, and an edit of the document from outside keeps the
    selected image in it. *)
Definition admissible (ev : Event) (st : State) : Prop :=
  match ev with
  | Select i => i ∈ document (host st)
  | ClickInside evt =>
      ∀ t, image_target evt = Some t → t ∈ document (host st)
  | HostEdit doc => ∀ im, img st = Some im → im ∈ doc
  | _ => True
  end.

(** The states of an instance: constructed on a container that has no
    overlay element yet, then driven by events. *)
Inductive reachable : State → Prop :=
| reach_init options defaults d h :
    filter (λ n, is_overlay_node n = true) (children d) = [] →
    reachable (constructor options defaults d h)
| reach_step ev st :
    reachable st → admissible ev st → reachable (step ev st).

Definition window_click : Listener :=
  {| l_target := Window; l_type := "click";
     l_handler := HandleClickOutside; l_capture := true |}.

Definition container_keyup : Listener :=
  {| l_target := Container; l_type := "keyup";
     l_handler := CheckImage; l_capture := false |}.

(** No image, no overlay, no module, no overlay element attached. *)
Definition deselected (st : State) : Prop :=
  img st = None ∧ overlay st = None ∧ modules st = [] ∧
  attached_overlays st = [].

(** ** The invariant of the selection *)

(** The overlay elements attached to the container are exactly the one the
    instance holds a reference to. *)
Definition overlay_attached (st : State) : Prop :=
  attached_overlays st
  = match overlay st with
    | Some ov => [NOverlay (ov_id ov)]
    | None => []
    end.

Record wf (st : State) : Prop := {
  wf_attached : overlay_attached st;
  wf_overlay : img st = None ↔ overlay st = None;
  wf_modules : img st = None → modules st = [];
  wf_fresh : Forall (λ m, mod_id m < next_id st) (modules st);
  wf_nodup : NoDup (mod_id <$> modules st);
  wf_window : overlay st ≠ None → window_click ∈ listeners (dom st);
}.

(** A computation keeps the invariant, also when it raises. *)
Definition preserves {A} (m : M A) : Prop :=
  ∀ st, wf st → wf (state_of (m st)).

(** The selected image is a node of the host document. *)
Definition valid_selection (st : State) : Prop :=
  ∀ im, img st = Some im → im ∈ document (host st).

(** A computation ends with no image selected, or with the image and the
    host it started with. *)
Definition keeps {A} (m : M A) : Prop :=
  ∀ st, wf st →
    img (state_of (m st)) = None ∨
    (img (state_of (m st)) = img st ∧ host (state_of (m st)) = host st).


(** What selecting image [i] in state [st] ends with: the image is the
    selection, one new overlay is attached and referenced, the modules are
    new objects, and the trace grows by the teardown of the old modules
    followed by the setup of the new ones. *)
Definition select_post
    (st : State) (i : Element) (r : Completion unit) (st' : State) : Prop :=
  img st' = Some i ∧
  (∃ ov', overlay st' = Some ov' ∧
          attached_overlays st' = [NOverlay (ov_id ov')]) ∧
  document (host st') = document (host st) ∧
  Forall (λ m, next_id st ≤ mod_id m) (modules st') ∧
  NoDup (mod_id <$> modules st') ∧
  trace st' = trace st ++ (OnDestroy <$> modules st)
              ++ (OnCreate <$> modules st') ++ (OnUpdate <$> modules st') ∧
  match r with
  | Normal _ =>
      Forall2 (λ c m, resolve c = Some (mod_ctor m))
              (moduleClasses st) (modules st')
  | Throw _ =>
      modules st' = [] ∧ ∃ c, c ∈ moduleClasses st ∧ resolve c = None
  end.

(** The part of the state that makes up the selection and the host
    document, for statements that leave the trace aside. *)
Definition selection (st : State)
    : option Element * option Overlay * list Module * Dom * Host :=
  (img st, overlay st, modules st, dom st, host st).

End Resizer.

(** ** A concrete page

    An editor with two images and a paragraph, the default module list and
    integral pixel geometry. *)
Module Example.

Definition imgA : Element := {| el_id := 1; el_tag := Some "IMG" |}.
Definition imgB : Element := {| el_id := 2; el_tag := Some "IMG" |}.
Definition para : Element := {| el_id := 3; el_tag := Some "P" |}.

Definition rect (l t w h : Z) : DOMRect :=
  {| rect_left := l; rect_top := t; rect_width := w; rect_height := h |}.

Definition page_layout : Layout :=
  {| img_rect := λ e, if decide (e = imgA) then rect 100 50 200 150
                      else rect 320 50 64 48;
     container_rect := rect 20 10 800 600;
     scrollLeft := 5%Z;
     scrollTop := 0%Z |}.

Definition page_dom : Dom :=
  {| children := [NRoot]; listeners := []; root_style := ∅;
     html_style := ∅; container_position := "";
     container_tabIndex := None; focus := None; layout := page_layout |}.

Definition page_host : Host :=
  {| quill_selection := Some (0, 0); document := [imgA; imgB] |}.

(** A value for the missing [DefaultOptions]: the three registered
    modules, and one overlay style. *)
Definition defaults : Defaults :=
  {| def_modules := [ByName "DisplaySize"; ByName "Toolbar"; ByName "Resize"];
     def_overlayStyles := {[ "position" := "absolute" ]} |}.

Definition no_options : Options :=
  {| opt_modules := None; opt_overlayStyles := ∅ |}.

(** The instance as constructed, and after a click on the first image. *)
Definition st_init : State :=
  constructor no_options defaults page_dom page_host.

Definition click_on (e : Element) : ClickEvent :=
  {| ce_target := Some e; ce_in_root := true |}.

Definition click_elsewhere : ClickEvent :=
  {| ce_target := None; ce_in_root := false |}.

Definition st_selected : State := step (ClickInside (click_on imgA)) st_init.

Definition key_delete : KeyEvent :=
  {| keyCode := 46; key := "Delete"; ctrlKey := false; metaKey := false |}.
Definition key_copy : KeyEvent :=
  {| keyCode := 67; key := "c"; ctrlKey := true; metaKey := false |}.
Definition key_cut : KeyEvent :=
  {| keyCode := 88; key := "x"; ctrlKey := true; metaKey := false |}.

End Example.

(** * Further notions for the rest of the class *)

(** ** The lifecycle of one module, read off a trace

    A module is created once, updated any number of times while it is
    live, and destroyed once; [lifecycle m tr] replays the calls that [tr]
    makes on [m] and is [None] as soon as one of them is out of turn. *)
Inductive Phase := Unborn | Live | Dead.

Definition lifecycle_step (m : Module) (p : option Phase) (e : Effect)
    : option Phase :=
  match p with
  | None => None
  | Some ph =>
      match e with
      | OnCreate m' =>
          if decide (m' = m)
          then match ph with Unborn => Some Live | _ => None end
          else Some ph
      | OnUpdate m' =>
          if decide (m' = m)
          then match ph with Live => Some Live | _ => None end
          else Some ph
      | OnDestroy m' =>
          if decide (m' = m)
          then match ph with Live => Some Dead | _ => None end
          else Some ph
      | _ => Some ph
      end
  end.

Definition lifecycle (m : Module) (tr : list Effect) : option Phase :=
  foldl (lifecycle_step m) (Some Unborn) tr.

Definition is_module_call (e : Effect) : bool :=
  match e with
  | OnCreate _ | OnUpdate _ | OnDestroy _ => true
  | _ => false
  end.

(** The listener the constructor puts on the editor root. *)
Definition root_click : Listener :=
  {| l_target := Root; l_type := "click";
     l_handler := HandleClickInside; l_capture := false |}.

(** The properties [setUserSelect] writes. *)
Definition user_select_props : list string :=
  ["userSelect"; "mozUserSelect"; "webkitUserSelect"; "msUserSelect"].

(** The properties [repositionElements] writes. *)
Definition geometry_props : list string := ["left"; "top"; "width"; "height"].

Section Notions.
Context {num : Type} `{!JsNumber num}.

(** The style [repositionElements] leaves on the overlay, for the image
    [im] under the layout [parent]. *)
Definition positioned
    (parent : Layout (num:=num)) (im : Element) (style : gmap string string)
    : gmap string string :=
  let imgRect := img_rect parent im in
  let containerRect := container_rect parent in
  <["height" := px (rect_height imgRect)]>
    (<["width" := px (rect_width imgRect)]>
      (<["top" := px (num_add (num_sub (rect_top imgRect)
                                       (rect_top containerRect))
                              (scrollTop parent))]>
        (<["left" := px (num_add
                           (num_sub (num_sub (rect_left imgRect)
                                             (rect_left containerRect))
                                    num_one)
                           (scrollLeft parent))]>
          style))).

(** Every module has been called in turn so far; the live modules are the
    ones created and not yet destroyed, and the identities not handed out
    yet have not been called at all. *)
Definition lifecycle_ok (st : State (num:=num)) : Prop :=
  ∀ m, ∃ ph,
    lifecycle m (trace st) = Some ph ∧
    (ph = Live ↔ m ∈ modules st) ∧
    (next_id st ≤ mod_id m → ph = Unborn).

(** A computation keeps the property [I] of states, also when it raises,
    on the states that satisfy the invariant of the selection. *)
Definition maintains (I : State (num:=num) → Prop) {A} (m : M A) : Prop :=
  ∀ st, wf st → I st → I (state_of (m st)).

(** While an overlay is shown the keyboard reaches the instance. *)
Definition keyboard_ready (st : State (num:=num)) : Prop :=
  root_click ∈ listeners (dom st) ∧
  (overlay st ≠ None →
   container_keyup ∈ listeners (dom st) ∧
   container_tabIndex (dom st) = Some 0%Z).

(** While an overlay is shown text selection is switched off on the
    editor root and on the document element. *)
Definition text_selection_off (st : State (num:=num)) : Prop :=
  overlay st ≠ None →
  ∀ prop, prop ∈ user_select_props →
    root_style (dom st) !! prop = Some "none" ∧
    html_style (dom st) !! prop = Some "none".

(** The state after the events [evs], handled one after the other. *)
Definition run (evs : list Event) (st : State (num:=num)) : State :=
  foldl (λ s ev, step ev s) st evs.

(** The overlay element was created by this instance. *)
Definition overlay_known (st : State (num:=num)) : Prop :=
  ∀ ov, overlay st = Some ov → ov_id ov < next_id st.

End Notions.

(** * Properties *)

Section Properties.
Context {num : Type} `{!JsNumber num}.
Implicit Types (st : State (num:=num)) (ov : Overlay) (i : Element).

Ltac unfold_m :=
  unfold mbind, M_bind, mret, M_ret, gets, modify, modify_dom, throw, fresh.

(** Evaluation on a state given by its fields: the record updates then
    reduce to one record, whatever the number of steps. *)
Ltac destruct_state st :=
  destruct st as [?mc ?os ?im ?ov ?ms [?ch ?ls ?rs ?hs ?cp ?ti ?fo ?ly]
                  [?qs ?doc] ?ni ?tr].

Ltac eval_fields :=
  cbn [img overlay modules dom host next_id trace moduleClasses overlayStyles
       set_img set_overlay set_modules set_dom set_host set_next_id set_trace
       children listeners root_style html_style container_position
       container_tabIndex focus layout set_children set_listeners
       set_user_select_styles set_container_position set_tabIndex set_focus
       set_layout ov_id ov_style document quill_selection
       fmap option_fmap option_map state_of fst snd] in *.

Ltac eval_m :=
  cbv [mbind M_bind modify modify_dom gets fresh emit throw setUserSelect
       forEach mret M_ret addEventListener removeEventListener appendChild
       repositionElements
       img overlay modules dom host next_id trace moduleClasses overlayStyles
       set_img set_overlay set_modules set_dom set_host set_next_id set_trace
       children listeners root_style html_style container_position
       container_tabIndex focus layout set_children set_listeners
       set_user_select_styles set_container_position set_tabIndex set_focus
       set_layout ov_id ov_style document quill_selection].

(** ** Module passes *)

Lemma forEach_emit {A} (f : A → Effect) (l : list A) st :
  forEach (λ x, emit (f x)) l st
  = (Normal tt, set_trace (trace st ++ (f <$> l)) st).
Proof.
  revert st. induction l as [|x l IH]; intros st.
  - destruct st. unfold set_trace. simpl. by rewrite app_nil_r.
  - simpl. unfold mbind, M_bind, emit, modify. rewrite IH.
    unfold set_trace. simpl. by rewrite <- app_assoc.
Qed.

Lemma removeModules_run st :
  removeModules st
  = (Normal tt,
     set_modules [] (set_trace (trace st ++ (OnDestroy <$> modules st)) st)).
Proof.
  unfold removeModules, mbind, M_bind, gets. by rewrite forEach_emit.
Qed.

Lemma removeModules_empty st :
  modules st = [] → removeModules st = (Normal tt, st).
Proof.
  intros Hm. rewrite removeModules_run, Hm. destruct st; simpl in *.
  subst. unfold set_modules, set_trace. simpl. by rewrite app_nil_r.
Qed.

(** ** Overlay teardown *)

Lemma attached_elem st ov :
  overlay_attached st → overlay st = Some ov →
  NOverlay (ov_id ov) ∈ children (dom st).
Proof.
  unfold overlay_attached, attached_overlays. intros H Ho. rewrite Ho in H.
  eapply (list_elem_of_filter (λ n, is_overlay_node n = true)).
  rewrite H. by apply list_elem_of_singleton.
Qed.

Lemma filter_overlay_removed (l : list Node) n :
  filter (λ x, is_overlay_node x = true) l = [n] →
  filter (λ x, is_overlay_node x = true) (filter (λ c, c ≠ n) l) = [].
Proof.
  intros Hl. apply elem_of_nil_inv. intros x Hx.
  apply list_elem_of_filter in Hx as [Hov Hx].
  apply list_elem_of_filter in Hx as [Hne Hx].
  apply Hne. apply list_elem_of_singleton. rewrite <- Hl.
  by apply list_elem_of_filter.
Qed.

Lemma filter_overlay_none (l : list Node) n :
  filter (λ x, is_overlay_node x = true) l = [] →
  filter (λ x, is_overlay_node x = true) (filter (λ c, c ≠ n) l) = [].
Proof.
  intros Hl. apply elem_of_nil_inv. intros x Hx.
  apply list_elem_of_filter in Hx as [Hov Hx].
  apply list_elem_of_filter in Hx as [Hne Hx].
  eapply not_elem_of_nil. rewrite <- Hl. by apply list_elem_of_filter.
Qed.

Lemma hideOverlay_none st :
  overlay st = None → hideOverlay st = (Normal tt, st).
Proof. intros H. unfold hideOverlay. unfold_m. by rewrite H. Qed.

Lemma hideOverlay_some st ov :
  overlay st = Some ov → NOverlay (ov_id ov) ∈ children (dom st) →
  ∃ st', hideOverlay st = (Normal tt, st') ∧
    overlay st' = None ∧ img st' = img st ∧ modules st' = modules st ∧
    trace st' = trace st ∧ next_id st' = next_id st ∧ host st' = host st ∧
    moduleClasses st' = moduleClasses st ∧
    overlayStyles st' = overlayStyles st ∧
    children (dom st')
      = filter (λ c, c ≠ NOverlay (ov_id ov)) (children (dom st)) ∧
    listeners (dom st')
      = filter (λ l, l ≠ container_keyup) (listeners (dom st)) ∧
    layout (dom st') = layout (dom st).
Proof.
  intros Ho Hin. eexists. split.
  - unfold hideOverlay, mbind, M_bind, gets. rewrite Ho.
    unfold removeChild, mbind, M_bind, gets. rewrite decide_True by done.
    reflexivity.
  - done.
Qed.

(** What [hide] leaves behind, on a state whose overlay is attached. *)
Lemma hide_spec st :
  overlay_attached st →
  ∃ st', hide st = (Normal tt, st') ∧
    img st' = None ∧ overlay st' = None ∧ modules st' = [] ∧
    attached_overlays st' = [] ∧
    trace st' = trace st ++ (OnDestroy <$> modules st) ∧
    next_id st' = next_id st ∧ host st' = host st ∧
    moduleClasses st' = moduleClasses st ∧
    overlayStyles st' = overlayStyles st ∧
    layout (dom st') = layout (dom st) ∧
    listeners (dom st')
      = match overlay st with
        | Some _ => filter (λ l, l ≠ container_keyup) (listeners (dom st))
        | None => listeners (dom st)
        end.
Proof.
  intros Hatt. unfold hide, mbind, M_bind.
  destruct (overlay st) as [ov|] eqn:Ho.
  - destruct (hideOverlay_some st ov Ho (attached_elem st ov Hatt Ho))
      as (st1 & -> & Ho1 & Hi1 & Hm1 & Ht1 & Hn1 & Hh1 & Hc1 & Hs1 & Hch1
          & Hl1 & Hy1).
    rewrite removeModules_run. unfold modify. eexists. split; [done|].
    simpl. rewrite Ht1, Hm1, Hn1, Hh1, Hc1, Hs1, Hy1, Hl1.
    repeat split; try done.
    unfold attached_overlays. simpl. rewrite Hch1.
    apply filter_overlay_removed. unfold overlay_attached in Hatt.
    by rewrite Ho in Hatt.
  - rewrite (hideOverlay_none st Ho), removeModules_run. unfold modify.
    eexists. split; [done|]. simpl. repeat split; try done.
    unfold overlay_attached in Hatt. by rewrite Ho in Hatt.
Qed.

Lemma hide_deselected st :
  img st = None → overlay st = None → modules st = [] →
  hide st = (Normal tt, st).
Proof.
  intros Hi Ho Hm. unfold hide, mbind, M_bind.
  rewrite (hideOverlay_none st Ho), (removeModules_empty st Hm).
  unfold modify. destruct st; simpl in *. by subst.
Qed.

(** ** Positioning and updates *)

Lemma repositionElements_frame st :
  ∃ st', repositionElements st = (Normal tt, st') ∧
    img st' = img st ∧ ov_id <$> overlay st' = ov_id <$> overlay st ∧
    modules st' = modules st ∧ dom st' = dom st ∧ host st' = host st ∧
    trace st' = trace st ∧ next_id st' = next_id st ∧
    moduleClasses st' = moduleClasses st ∧
    overlayStyles st' = overlayStyles st.
Proof.
  unfold repositionElements. unfold_m.
  destruct (overlay st) as [ov|] eqn:Ho, (img st) as [im|] eqn:Hi;
    eexists; (split; [reflexivity|]); simpl; by rewrite ?Ho, ?Hi.
Qed.

Lemma repositionElements_skip st :
  overlay st = None ∨ img st = None →
  repositionElements st = (Normal tt, st).
Proof.
  unfold repositionElements. unfold_m.
  intros [-> | ->]; [done|]. by destruct (overlay st).
Qed.

Lemma onUpdate_frame st :
  ∃ st', onUpdate st = (Normal tt, st') ∧
    img st' = img st ∧ ov_id <$> overlay st' = ov_id <$> overlay st ∧
    modules st' = modules st ∧ dom st' = dom st ∧ host st' = host st ∧
    trace st' = trace st ++ (OnUpdate <$> modules st) ∧
    next_id st' = next_id st ∧
    moduleClasses st' = moduleClasses st ∧
    overlayStyles st' = overlayStyles st.
Proof.
  destruct (repositionElements_frame st)
    as (st1 & Hrun & Hi & Ho & Hm & Hd & Hh & Ht & Hn & Hc & Hs).
  unfold onUpdate, mbind, M_bind. rewrite Hrun. unfold gets.
  rewrite forEach_emit. eexists. split; [reflexivity|]. simpl.
  by rewrite Hi, Ho, Hm, Hd, Hh, Ht, Hn, Hc, Hs.
Qed.

(** ** Module construction *)

Lemma construct_spec cs st :
  ∃ r k, construct cs st = (r, set_next_id (next_id st + k) st) ∧
    match r with
    | Normal ms =>
        Forall (λ m, next_id st ≤ mod_id m < next_id st + k) ms ∧
        NoDup (mod_id <$> ms) ∧
        Forall2 (λ c m, resolve c = Some (mod_ctor m)) cs ms
    | Throw _ => ∃ c, c ∈ cs ∧ resolve c = None
    end.
Proof.
  revert st. induction cs as [|c cs IH]; intros st.
  - exists (Normal []), 0. split.
    + destruct st. unfold set_next_id. simpl. by rewrite Nat.add_0_r.
    + repeat split; constructor.
  - simpl. destruct (resolve c) as [k0|] eqn:Hc.
    + unfold mbind, M_bind, fresh.
      destruct (IH (set_next_id (S (next_id st)) st)) as (r & k & Hrun & Hr).
      rewrite Hrun. simpl in *. destruct r as [ms|e].
      * exists (Normal ({| mod_ctor := k0; mod_id := next_id st |} :: ms)),
          (S k).
        split.
        { unfold mret, M_ret, set_next_id. simpl. do 2 f_equal. lia. }
        destruct Hr as (Hb & Hnd & Hres). repeat split.
        -- constructor; [simpl; lia|].
           eapply Forall_impl; [exact Hb|]. simpl. intros; lia.
        -- simpl. constructor; [|done]. intros Hin.
           apply list_elem_of_fmap in Hin as (m & Hid & Hm).
           rewrite Forall_forall in Hb. apply Hb in Hm. lia.
        -- by constructor.
      * exists (Throw e), (S k). split.
        { unfold set_next_id. simpl. do 2 f_equal. lia. }
        destruct Hr as (c' & Hin & Hc'). exists c'. split; [|done].
        by apply list_elem_of_further.
    + exists (Throw (TypeError "ModuleClass is not a constructor")), 0.
      split.
      * unfold throw. destruct st. unfold set_next_id. simpl.
        by rewrite Nat.add_0_r.
      * exists c. split; [apply list_elem_of_here|done].
Qed.

(** ** Listener registration *)

Lemma add_listener_elem (l : Listener) ls : l ∈ add_listener l ls.
Proof.
  unfold add_listener. case_decide; [done|].
  apply elem_of_app. right. apply list_elem_of_here.
Qed.

Lemma add_listener_mono (l l' : Listener) ls :
  l' ∈ ls → l' ∈ add_listener l ls.
Proof.
  unfold add_listener. case_decide; [done|].
  intros. apply elem_of_app. by left.
Qed.

(** ** Overlay creation *)

Lemma showOverlay_none st :
  overlay st = None → attached_overlays st = [] →
  ∃ st' ov', showOverlay st = (Normal tt, st') ∧
    overlay st' = Some ov' ∧ ov_id ov' = next_id st ∧
    img st' = img st ∧ modules st' = modules st ∧ trace st' = trace st ∧
    next_id st' = S (next_id st) ∧
    document (host st') = document (host st) ∧
    moduleClasses st' = moduleClasses st ∧
    overlayStyles st' = overlayStyles st ∧
    layout (dom st') = layout (dom st) ∧
    attached_overlays st' = [NOverlay (next_id st)] ∧
    window_click ∈ listeners (dom st') ∧
    container_keyup ∈ listeners (dom st').
Proof.
  intros Ho Hatt. destruct_state st. unfold attached_overlays in *.
  eval_fields. subst.
  unfold showOverlay. destruct im; eval_m.
  all: do 2 eexists; (split; [reflexivity|]); eval_fields.
  all: unfold window_click, container_keyup.
  all: repeat split; try done.
  1,4: rewrite filter_app, (filter_overlay_none _ _ Hatt);
    rewrite filter_cons, decide_True by done; reflexivity.
  1,3: apply add_listener_mono, add_listener_elem.
  all: apply add_listener_elem.
Qed.

(** A state with an overlay goes through [hideOverlay] first and then
    behaves as the state without one. *)
Lemma showOverlay_spec st :
  overlay_attached st →
  ∃ st' ov', showOverlay st = (Normal tt, st') ∧
    overlay st' = Some ov' ∧ ov_id ov' = next_id st ∧
    img st' = img st ∧ modules st' = modules st ∧ trace st' = trace st ∧
    next_id st' = S (next_id st) ∧
    document (host st') = document (host st) ∧
    moduleClasses st' = moduleClasses st ∧
    overlayStyles st' = overlayStyles st ∧
    layout (dom st') = layout (dom st) ∧
    attached_overlays st' = [NOverlay (next_id st)] ∧
    window_click ∈ listeners (dom st') ∧
    container_keyup ∈ listeners (dom st').
Proof.
  intros Hatt. destruct (overlay st) as [ov|] eqn:Ho.
  - destruct (hideOverlay_some st ov Ho (attached_elem st ov Hatt Ho))
      as (st1 & Hrun & Ho1 & Hi1 & Hm1 & Ht1 & Hn1 & Hh1 & Hc1 & Hs1 & Hch1
          & Hl1 & Hy1).
    assert (attached_overlays st1 = []) as Ha1.
    { unfold attached_overlays. rewrite Hch1. apply filter_overlay_removed.
      unfold overlay_attached in Hatt. by rewrite Ho in Hatt. }
    assert (showOverlay st = showOverlay st1) as ->.
    { unfold showOverlay, mbind, M_bind, gets. rewrite Ho, Hrun, Ho1.
      unfold mret, M_ret. reflexivity. }
    destruct (showOverlay_none st1 Ho1 Ha1) as (st' & ov' & H).
    exists st', ov'. by rewrite <- Hi1, <- Hm1, <- Ht1, <- Hn1, <- Hh1,
      <- Hc1, <- Hs1, <- Hy1.
  - apply showOverlay_none; [done|].
    unfold overlay_attached in Hatt. by rewrite Ho in Hatt.
Qed.

(** ** Module initialisation and [show] *)

Lemma initializeModules_spec st :
  ∃ r st', initializeModules st = (r, st') ∧
    img st' = img st ∧ ov_id <$> overlay st' = ov_id <$> overlay st ∧
    dom st' = dom st ∧ host st' = host st ∧
    moduleClasses st' = moduleClasses st ∧
    overlayStyles st' = overlayStyles st ∧
    next_id st ≤ next_id st' ∧
    Forall (λ m, next_id st ≤ mod_id m < next_id st') (modules st') ∧
    NoDup (mod_id <$> modules st') ∧
    match r with
    | Normal _ =>
        trace st' = trace st ++ (OnDestroy <$> modules st)
                    ++ (OnCreate <$> modules st')
                    ++ (OnUpdate <$> modules st') ∧
        Forall2 (λ c m, resolve c = Some (mod_ctor m))
                (moduleClasses st) (modules st')
    | Throw _ =>
        modules st' = [] ∧
        trace st' = trace st ++ (OnDestroy <$> modules st) ∧
        ∃ c, c ∈ moduleClasses st ∧ resolve c = None
    end.
Proof.
  destruct_state st.
  unfold initializeModules, mbind, M_bind. rewrite removeModules_run.
  unfold gets at 1. eval_fields.
  match goal with
  | |- context [construct mc ?s] =>
      destruct (construct_spec mc s) as (r & k & -> & Hr)
  end.
  unfold set_modules, set_trace, set_next_id in *. eval_fields.
  destruct r as [ms'|e].
  - destruct Hr as (Hb & Hnd & Hres).
    unfold modify, gets, set_modules. eval_fields. rewrite forEach_emit.
    unfold set_trace. eval_fields.
    match goal with
    | |- context [onUpdate ?s] =>
        destruct (onUpdate_frame s)
          as (st2 & -> & Hi2 & Ho2 & Hm2 & Hd2 & Hh2 & Ht2 & Hn2 & Hc2 & Hs2)
    end.
    eval_fields. do 2 eexists. split; [reflexivity|].
    rewrite Hi2, Ho2, Hd2, Hh2, Hc2, Hs2, Hn2, Hm2, Ht2.
    repeat split; try done; [lia|]. by rewrite <- !app_assoc.
  - do 2 eexists. split; [reflexivity|]. eval_fields.
    repeat split; try done; try lia; try apply NoDup_nil_2;
      try apply Forall_nil_2.
Qed.

Lemma overlay_attached_ext st st' :
  children (dom st') = children (dom st) →
  ov_id <$> overlay st' = ov_id <$> overlay st →
  overlay_attached st → overlay_attached st'.
Proof.
  unfold overlay_attached, attached_overlays. intros -> Ho ->.
  destruct (overlay st), (overlay st'); simpl in Ho; congruence.
Qed.

Lemma show_spec st i :
  overlay_attached st →
  ∃ r st' ov', show i st = (r, st') ∧
    img st' = Some i ∧ overlay st' = Some ov' ∧ ov_id ov' = next_id st ∧
    attached_overlays st' = [NOverlay (next_id st)] ∧
    document (host st') = document (host st) ∧
    moduleClasses st' = moduleClasses st ∧
    overlayStyles st' = overlayStyles st ∧
    layout (dom st') = layout (dom st) ∧
    window_click ∈ listeners (dom st') ∧
    container_keyup ∈ listeners (dom st') ∧
    next_id st < next_id st' ∧
    Forall (λ m, next_id st < mod_id m < next_id st') (modules st') ∧
    NoDup (mod_id <$> modules st') ∧
    match r with
    | Normal _ =>
        trace st' = trace st ++ (OnDestroy <$> modules st)
                    ++ (OnCreate <$> modules st')
                    ++ (OnUpdate <$> modules st') ∧
        Forall2 (λ c m, resolve c = Some (mod_ctor m))
                (moduleClasses st) (modules st')
    | Throw _ =>
        modules st' = [] ∧
        trace st' = trace st ++ (OnDestroy <$> modules st) ∧
        ∃ c, c ∈ moduleClasses st ∧ resolve c = None
    end.
Proof.
  intros Hatt. unfold show, mbind, M_bind, modify at 1.
  assert (overlay_attached (set_img (Some i) st)) as Hatt'
    by (by eapply overlay_attached_ext; [| |exact Hatt]).
  destruct (showOverlay_spec _ Hatt')
    as (st1 & ov1 & -> & Ho1 & Hid1 & Hi1 & Hm1 & Ht1 & Hn1 & Hdoc1 & Hc1
        & Hs1 & Hy1 & Ha1 & Hw1 & Hk1).
  eval_fields.
  destruct (initializeModules_spec st1)
    as (r & st2 & -> & Hi2 & Ho2 & Hd2 & Hh2 & Hc2 & Hs2 & Hn2 & Hb2 & Hnd2
        & Hr2).
  rewrite Ho1 in Ho2. destruct (overlay st2) as [ov2|] eqn:Hov2; [|done].
  simpl in Ho2. injection Ho2 as Ho2.
  exists r, st2, ov2. split; [done|].
  rewrite Hi2, Hi1, Hh2, Hdoc1, Hc2, Hc1, Hs2, Hs1, Hd2, Hy1, Ho2, Hid1.
  repeat split; try done.
  - unfold attached_overlays in *. by rewrite Hd2.
  - lia.
  - eapply Forall_impl; [exact Hb2|]. simpl. intros; lia.
  - rewrite Ht1, Hm1, Hc1 in Hr2. exact Hr2.
Qed.

(** ** The invariant is kept by every event *)

Lemma wf_ext st st' :
  img st' = img st → ov_id <$> overlay st' = ov_id <$> overlay st →
  modules st' = modules st → dom st' = dom st → next_id st' = next_id st →
  wf st → wf st'.
Proof.
  intros Hi Ho Hm Hd Hn [H1 H2 H3 H4 H5 H6]. split.
  - eapply overlay_attached_ext; [| |exact H1]; by rewrite ?Hd.
  - rewrite Hi, H2. destruct (overlay st), (overlay st'); simpl in Ho;
      split; congruence.
  - rewrite Hi, Hm. done.
  - by rewrite Hm, Hn.
  - by rewrite Hm.
  - rewrite Hd. intros Hne. apply H6.
    destruct (overlay st), (overlay st'); simpl in Ho; congruence.
Qed.

Lemma preserves_ret {A} (a : A) : preserves (num:=num) (mret a).
Proof. by intros st. Qed.

Lemma preserves_throw {A} e : preserves (num:=num) (throw (A:=A) e).
Proof. by intros st. Qed.

Lemma preserves_gets {A} (f : State (num:=num) → A) : preserves (gets f).
Proof. by intros st. Qed.

Lemma preserves_bind {A B} (m : M (num:=num) A) (f : A → M B) :
  preserves m → (∀ a, preserves (f a)) → preserves (m ≫= f).
Proof.
  intros Hm Hf st Hwf. specialize (Hm st Hwf).
  unfold mbind, M_bind. destruct (m st) as [[a|e] st1]; [|done].
  by apply Hf.
Qed.

Lemma preserves_emit e : preserves (num:=num) (emit e).
Proof. intros st. by apply wf_ext. Qed.

Lemma preserves_async {A} (m : M (num:=num) A) :
  preserves m → preserves (async m).
Proof.
  intros Hm st Hwf. specialize (Hm st Hwf). unfold async.
  destruct (m st) as [[a|e] st1]; [done|]. revert Hm. by apply wf_ext.
Qed.

Lemma preserves_hide : preserves (num:=num) hide.
Proof.
  intros st [H1 H2 H3 H4 H5 H6].
  destruct (hide_spec st H1)
    as (st1 & -> & Hi & Ho & Hm & Ha & _ & Hn & _).
  cbn [state_of snd].
  split; unfold overlay_attached; rewrite ?Hi, ?Ho, ?Hm; try done.
  apply NoDup_nil_2.
Qed.

Lemma preserves_show i : preserves (num:=num) (show i).
Proof.
  intros st [H1 H2 H3 H4 H5 H6].
  destruct (show_spec st i H1)
    as (r & st1 & ov1 & -> & Hi & Ho & Hid & Ha & _ & _ & _ & _ & Hw & _
        & Hn & Hb & Hnd & _).
  cbn [state_of snd].
  split; unfold overlay_attached; rewrite ?Hi, ?Ho, ?Ha, ?Hid; try done.
  eapply Forall_impl; [exact Hb|]. simpl. intros; lia.
Qed.

Lemma preserves_onUpdate : preserves (num:=num) onUpdate.
Proof.
  intros st. destruct (onUpdate_frame st)
    as (st1 & -> & Hi & Ho & Hm & Hd & _ & _ & Hn & _).
  by apply wf_ext.
Qed.

Lemma preserves_deleteImage o : preserves (num:=num) (deleteImage o).
Proof.
  intros st. unfold deleteImage. unfold_m.
  destruct o as [im|]; [|done]. case_decide; [|done]. by apply wf_ext.
Qed.

Lemma preserves_copy b : preserves (num:=num) (copyImageToClipboard b).
Proof.
  unfold copyImageToClipboard. apply preserves_bind; [apply preserves_gets|].
  intros [im|]; [|apply preserves_throw].
  destruct b; try apply preserves_throw; try apply preserves_ret.
  all: apply preserves_bind; [apply preserves_emit|];
    intros; apply preserves_ret.
Qed.

Lemma preserves_checkImage evt b :
  preserves (num:=num) (checkImage evt b).
Proof.
  unfold checkImage. apply preserves_bind; [apply preserves_gets|].
  intros [im|]; [|apply preserves_ret].
  repeat (apply preserves_bind; [|intros ?]).
  - destruct (is_delete_key evt); [|apply preserves_ret].
    apply preserves_bind; [|intros; apply preserves_hide].
    apply preserves_bind; [apply preserves_gets|].
    intros; apply preserves_deleteImage.
  - destruct (is_chord evt "c"); [|apply preserves_ret].
    apply preserves_bind; [apply preserves_emit|]. intros _.
    apply preserves_bind; [apply preserves_copy|].
    intros []; try apply preserves_ret. apply preserves_emit.
  - destruct (is_chord evt "x"); [|apply preserves_ret].
    apply preserves_bind; [apply preserves_emit|]. intros _.
    apply preserves_bind; [apply preserves_copy|].
    intros; apply preserves_ret.
Qed.

Lemma preserves_resume p : preserves (num:=num) (checkImage_resume p).
Proof.
  destruct p as [[]| |]; simpl;
    try apply preserves_ret; try apply preserves_throw.
  apply preserves_bind; [|intros; apply preserves_hide].
  apply preserves_bind; [apply preserves_gets|].
  intros; apply preserves_deleteImage.
Qed.

Lemma preserves_clickInside evt :
  preserves (num:=num) (handleClickInsideQuillInstance evt).
Proof.
  unfold handleClickInsideQuillInstance.
  apply preserves_bind; [apply preserves_hide|]. intros _.
  destruct (image_target evt); [apply preserves_show|apply preserves_ret].
Qed.

Lemma preserves_clickOutside evt :
  preserves (num:=num) (handleClickOutsideQuillInstance evt).
Proof.
  unfold handleClickOutsideQuillInstance.
  destruct (negb (ce_in_root evt)); [apply preserves_hide|apply preserves_ret].
Qed.

Lemma wf_constructor options defaults (d : Dom (num:=num)) h :
  filter (λ n, is_overlay_node n = true) (children d) = [] →
  wf (constructor options defaults d h).
Proof.
  intros Hd. split; unfold overlay_attached, attached_overlays; simpl;
    try done; try apply Forall_nil_2; try apply NoDup_nil_2.
Qed.

Lemma wf_step ev st : wf st → wf (step ev st).
Proof.
  intros Hwf. destruct ev; simpl.
  - by apply preserves_show.
  - by apply preserves_hide.
  - by apply preserves_clickInside.
  - by apply preserves_clickOutside.
  - apply preserves_async; [apply preserves_checkImage|done].
  - apply preserves_async; [apply preserves_resume|done].
  - by apply preserves_onUpdate.
  - revert Hwf. intros [H1 H2 H3 H4 H5 H6]. by split.
  - revert Hwf. by apply wf_ext.
Qed.

Lemma run_wf evs st : wf st → wf (run evs st).
Proof.
  revert st. induction evs as [|ev evs IH]; intros st Hwf; [done|].
  change (run (ev :: evs) st) with (run evs (step ev st)).
  by apply IH, wf_step.
Qed.

Lemma reachable_wf st : reachable st → wf st.
Proof.
  induction 1 as [options defaults d h Hd|ev st _ IH _].
  - by apply wf_constructor.
  - by apply wf_step.
Qed.

(** ** The selected image stays in the host document *)

Lemma keeps_ret {A} (a : A) : keeps (num:=num) (mret a).
Proof. intros st _. by right. Qed.

Lemma keeps_throw {A} e : keeps (num:=num) (throw (A:=A) e).
Proof. intros st _. by right. Qed.

Lemma keeps_gets {A} (f : State (num:=num) → A) : keeps (gets f).
Proof. intros st _. by right. Qed.

Lemma keeps_emit e : keeps (num:=num) (emit e).
Proof. intros st _. by right. Qed.

Lemma keeps_bind {A B} (m : M (num:=num) A) (f : A → M B) :
  preserves m → keeps m → (∀ a, keeps (f a)) → keeps (m ≫= f).
Proof.
  intros Hp Hm Hf st Hwf. specialize (Hp st Hwf). specialize (Hm st Hwf).
  unfold mbind, M_bind. destruct (m st) as [[a|e] st1]; [|done].
  cbn [state_of snd] in Hp, Hm. specialize (Hf a st1 Hp).
  destruct Hf as [Hn|[Hi Hh]]; [by left|].
  rewrite Hi, Hh. exact Hm.
Qed.

Lemma keeps_async {A} (m : M (num:=num) A) : keeps m → keeps (async m).
Proof.
  intros Hm st Hwf. specialize (Hm st Hwf). unfold async.
  by destruct (m st) as [[a|e] st1].
Qed.

Lemma keeps_hide : keeps (num:=num) hide.
Proof.
  intros st [Hatt _ _ _ _ _].
  destruct (hide_spec st Hatt) as (st1 & -> & Hi & _). by left.
Qed.

Lemma keeps_onUpdate : keeps (num:=num) onUpdate.
Proof.
  intros st _. destruct (onUpdate_frame st)
    as (st1 & -> & Hi & _ & _ & _ & Hh & _).
  by right.
Qed.

Lemma keeps_copy b : keeps (num:=num) (copyImageToClipboard b).
Proof.
  intros st _. right.
  assert (state_of (copyImageToClipboard b st) = st ∨
          ∃ t, state_of (copyImageToClipboard b st) = set_trace t st)
    as [->|[t ->]]; [|done|done].
  unfold copyImageToClipboard, mbind, M_bind, gets.
  destruct (img st); [destruct b|];
    first [by left | right; eexists; reflexivity].
Qed.

Lemma preserves_drop p : preserves (num:=num) (drop p).
Proof. destruct p; try apply preserves_ret. apply preserves_emit. Qed.

Lemma keeps_drop p : keeps (num:=num) (drop p).
Proof. intros st _. destruct p; by right. Qed.

Lemma preserves_delete_hide :
  preserves (num:=num) ((i ← gets img; deleteImage i);; hide).
Proof.
  apply preserves_bind; [|intros; apply preserves_hide].
  apply preserves_bind; [apply preserves_gets|].
  intros; apply preserves_deleteImage.
Qed.

(** The deletion changes the host document, and [hide] follows it. *)
Lemma keeps_delete_hide :
  keeps (num:=num) ((i ← gets img; deleteImage i);; hide).
Proof.
  intros st Hwf.
  assert (((i ← gets img; deleteImage i);; hide) st
          = match deleteImage (img st) st with
            | (Normal _, st1) => hide st1
            | (Throw e, st1) => (Throw e, st1)
            end) as -> by reflexivity.
  pose proof (preserves_deleteImage (img st) st Hwf) as Hwf1.
  destruct (deleteImage (img st) st) as [[[]|e] st1] eqn:Hdel.
  - destruct Hwf1 as [Hatt _ _ _ _ _].
    destruct (hide_spec st1 Hatt) as (st2 & -> & Hi & _). by left.
  - assert (st1 = st) as ->; [|by right].
    unfold deleteImage, mbind, M_bind, gets, throw, modify in Hdel.
    destruct (img st) as [im|]; [case_decide; [done|]|];
      by injection Hdel.
Qed.

Lemma keeps_checkImage evt b : keeps (num:=num) (checkImage evt b).
Proof.
  unfold checkImage.
  apply keeps_bind; [apply preserves_gets|apply keeps_gets|].
  intros [im|]; [|apply keeps_ret].
  apply keeps_bind.
  - destruct (is_delete_key evt);
      [apply preserves_delete_hide|apply preserves_ret].
  - destruct (is_delete_key evt); [apply keeps_delete_hide|apply keeps_ret].
  - intros _. apply keeps_bind.
    + destruct (is_chord evt "c"); [|apply preserves_ret].
      apply preserves_bind; [apply preserves_emit|]. intros _.
      apply preserves_bind; [apply preserves_copy|apply preserves_drop].
    + destruct (is_chord evt "c"); [|apply keeps_ret].
      apply keeps_bind; [apply preserves_emit|apply keeps_emit|]. intros _.
      apply keeps_bind; [apply preserves_copy|apply keeps_copy|].
      apply keeps_drop.
    + intros _. destruct (is_chord evt "x"); [|apply keeps_ret].
      apply keeps_bind; [apply preserves_emit|apply keeps_emit|]. intros _.
      apply keeps_bind; [apply preserves_copy|apply keeps_copy|].
      intros; apply keeps_ret.
Qed.

Lemma keeps_resume p : keeps (num:=num) (checkImage_resume p).
Proof.
  destruct p as [[]| |]; simpl; try apply keeps_ret; try apply keeps_throw.
  apply keeps_delete_hide.
Qed.

Lemma keeps_valid {A} (m : M (num:=num) A) st :
  keeps m → wf st → valid_selection st → valid_selection (state_of (m st)).
Proof.
  intros Hm Hwf Hv im Hi. destruct (Hm st Hwf) as [Hn|[Hi' Hh]].
  - congruence.
  - rewrite Hh. apply Hv. by rewrite <- Hi'.
Qed.

Lemma valid_show st i :
  wf st → i ∈ document (host st) →
  valid_selection (state_of (show i st)).
Proof.
  intros [Hatt _ _ _ _ _] Hin.
  destruct (show_spec st i Hatt)
    as (r & st' & ov' & -> & Hi & _ & _ & _ & Hdoc & _).
  cbn [state_of snd]. intros im. rewrite Hi, Hdoc. by intros [= <-].
Qed.

Lemma valid_step ev st :
  wf st → valid_selection st → admissible ev st →
  valid_selection (step ev st).
Proof.
  intros Hwf Hv Hadm. destruct ev; simpl in *.
  - by apply valid_show.
  - by apply keeps_valid; [apply keeps_hide| |].
  - unfold handleClickInsideQuillInstance, mbind, M_bind.
    pose proof (preserves_hide st Hwf) as Hwf1.
    destruct Hwf as [Hatt _ _ _ _ _].
    destruct (hide_spec st Hatt)
      as (st1 & Hrun & Hi1 & _ & _ & _ & _ & _ & Hh1 & _).
    rewrite Hrun in *. cbn [state_of snd] in Hwf1.
    destruct (image_target evt) as [t|].
    + apply valid_show; [done|]. rewrite Hh1. by apply Hadm.
    + intros im. unfold mret, M_ret. cbn [state_of snd]. by rewrite Hi1.
  - unfold handleClickOutsideQuillInstance.
    destruct (negb (ce_in_root evt)); [|done].
    by apply keeps_valid; [apply keeps_hide| |].
  - by apply keeps_valid; [apply keeps_async, keeps_checkImage| |].
  - by apply keeps_valid; [apply keeps_async, keeps_resume| |].
  - by apply keeps_valid; [apply keeps_onUpdate| |].
  - exact Hv.
  - exact Hadm.
Qed.

Lemma reachable_valid st : reachable st → valid_selection st.
Proof.
  induction 1 as [options defaults d h Hd|ev st Hr IH Hadm].
  - by intros im.
  - apply valid_step; [by apply reachable_wf|done|done].
Qed.

(** ** Selecting *)


Lemma show_select_post st i :
  overlay_attached st →
  ∃ r st', show i st = (r, st') ∧ select_post st i r st'.
Proof.
  intros Hatt.
  destruct (show_spec st i Hatt)
    as (r & st' & ov' & Hrun & Hi & Ho & Hid & Ha & Hdoc & _ & _ & _ & _ & _
        & Hn & Hb & Hnd & Hr).
  exists r, st'. split; [done|]. unfold select_post.
  repeat split; try done.
  - exists ov'. by rewrite Hid.
  - eapply Forall_impl; [exact Hb|]. simpl. intros; lia.
  - destruct r; [by destruct Hr|].
    destruct Hr as (Hm & -> & _). by rewrite Hm, !app_nil_r.
  - destruct r; [by destruct Hr|]. by destruct Hr as (Hm & _ & Hc).
Qed.

(** A click inside the editor: [hide], then [show] on what [hide] left. *)
Lemma clickInside_run st evt :
  overlay_attached st →
  ∃ st1, hide st = (Normal tt, st1) ∧ deselected st1 ∧
    trace st1 = trace st ++ (OnDestroy <$> modules st) ∧
    next_id st1 = next_id st ∧ host st1 = host st ∧
    moduleClasses st1 = moduleClasses st ∧
    handleClickInsideQuillInstance evt st
      = match image_target evt with
        | Some target => show target st1
        | None => (Normal tt, st1)
        end.
Proof.
  intros Hatt.
  destruct (hide_spec st Hatt)
    as (st1 & Hrun & Hi & Ho & Hm & Ha & Ht & Hn & Hh & Hc & _).
  exists st1. repeat split; try done.
  unfold handleClickInsideQuillInstance, mbind, M_bind. rewrite Hrun.
  by destruct (image_target evt).
Qed.

Lemma deselected_attached st : deselected st → overlay_attached st.
Proof.
  intros (_ & Ho & _ & Ha). unfold overlay_attached. by rewrite Ho, Ha.
Qed.

Lemma clickInside_select_post st evt i :
  overlay_attached st → image_target evt = Some i →
  ∃ r st', handleClickInsideQuillInstance evt st = (r, st') ∧
           select_post st i r st'.
Proof.
  intros Hatt Htarget.
  destruct (clickInside_run st evt Hatt)
    as (st1 & _ & Hdes & Ht & Hn & Hh & Hc & ->).
  rewrite Htarget.
  destruct (show_select_post st1 i (deselected_attached st1 Hdes))
    as (r & st' & -> & Hi & Ho & Hdoc & Hb & Hnd & Htr & Hr).
  destruct Hdes as (_ & _ & Hm1 & _).
  exists r, st'. split; [done|]. unfold select_post.
  rewrite <- Hn, <- Hh, <- Hc. repeat split; try done.
  rewrite Htr, Ht, Hm1. simpl. by rewrite <- app_assoc.
Qed.

(** ** Counting teardown calls *)

Lemma count_destroy (a : Module) (ms : list Module) :
  NoDup ms → a ∈ ms →
  length (filter (λ e, e = OnDestroy a) (OnDestroy <$> ms)) = 1.
Proof.
  induction ms as [|m ms IH]; intros Hnd Hin.
  - by apply elem_of_nil in Hin.
  - apply NoDup_cons in Hnd as [Hm Hnd]. simpl. rewrite filter_cons.
    destruct (decide (OnDestroy m = OnDestroy a)) as [[= ->]|Hne].
    + simpl. f_equal. apply length_zero_iff_nil, elem_of_nil_inv.
      intros e He. apply list_elem_of_filter in He as [-> He].
      apply list_elem_of_fmap in He as (m' & [= <-] & Hm'). done.
    + apply IH; [done|]. apply elem_of_cons in Hin as [->|]; done.
Qed.

Lemma no_destroy_in (a : Module) (f : Module → Effect) (ms : list Module) :
  (∀ m, f m ≠ OnDestroy a) →
  filter (λ e, e = OnDestroy a) (f <$> ms) = [].
Proof.
  intros Hf. apply elem_of_nil_inv. intros e He.
  apply list_elem_of_filter in He as [-> He].
  apply list_elem_of_fmap in He as (m & Hm & _). by eapply Hf.
Qed.

(** * The claims *)

(** C10.  At most one overlay element is attached to the container at any
    time, and it is the one the instance refers to: in every reachable
    state the attached overlay elements are exactly the referenced overlay
    (none when there is no reference); and a further [show], also on a
    state that already has an overlay, ends with exactly one attached
    overlay element, the newly created and referenced one. *)
Theorem at_most_one_overlay st :
  reachable st →
  attached_overlays st
    = match overlay st with
      | Some ov => [NOverlay (ov_id ov)]
      | None => []
      end ∧
  length (attached_overlays st) ≤ 1 ∧
  ∀ i, ∃ ov',
    overlay (state_of (show i st)) = Some ov' ∧
    attached_overlays (state_of (show i st)) = [NOverlay (ov_id ov')].
Proof.
  intros Hr. pose proof (reachable_wf st Hr) as [Hatt _ _ _ _ _].
  split; [exact Hatt|]. split.
  - rewrite Hatt. destruct (overlay st); simpl; lia.
  - intros i. destruct (show_spec st i Hatt)
      as (r & st' & ov' & -> & _ & Ho & Hid & Ha & _).
    exists ov'. cbn [state_of snd]. by rewrite Hid.
Qed.

(** C3.  [hide] is idempotent: in every reachable state a first [hide]
    returns normally, and a second [hide] right after it returns normally
    and leaves the state of the first exactly as it is; and when no image
    is selected, [hide] returns normally with the state, the DOM and the
    trace of module calls included, exactly as it was. *)
Theorem hide_idempotent st :
  reachable st →
  (∃ st1, hide st = (Normal tt, st1) ∧ hide st1 = (Normal tt, st1)) ∧
  (img st = None → hide st = (Normal tt, st)).
Proof.
  intros Hr. pose proof (reachable_wf st Hr) as [Hatt Hio Him _ _ _].
  split.
  - destruct (hide_spec st Hatt) as (st1 & Hrun & Hi & Ho & Hm & _).
    exists st1. split; [done|]. by apply hide_deselected.
  - intros Hi. apply hide_deselected; [done| |by apply Him].
    by apply Hio.
Qed.

(** C8.  With no overlay or no selected image, [repositionElements]
    returns normally and leaves the whole state, every style included, as
    it is, whatever the geometry of the page; and so does [onUpdate] when
    no module is live. *)
Theorem reposition_without_selection st :
  overlay st = None ∨ img st = None →
  repositionElements st = (Normal tt, st) ∧
  (∀ l, repositionElements (set_dom (set_layout l (dom st)) st)
        = (Normal tt, set_dom (set_layout l (dom st)) st)) ∧
  (modules st = [] → onUpdate st = (Normal tt, st)).
Proof.
  intros Hsel. split; [by apply repositionElements_skip|]. split.
  - intros l. by apply repositionElements_skip.
  - intros Hm. unfold onUpdate, mbind, M_bind, gets.
    rewrite (repositionElements_skip st Hsel), Hm. reflexivity.
Qed.

(** C4.  With an overlay and a selected image, [repositionElements]
    returns normally, changes nothing but the style of the overlay, and
    sets there left = imgLeft - containerLeft - 1 + scrollLeft,
    top = imgTop - containerTop + scrollTop, width = imgWidth and
    height = imgHeight, each followed by px, from the current rectangles of
    the image and of the container and the scroll offsets of the
    container; the other style properties keep their values. *)
Theorem reposition_style st ov im :
  overlay st = Some ov → img st = Some im →
  ∃ style,
    repositionElements st
      = (Normal tt,
         set_overlay (Some {| ov_id := ov_id ov; ov_style := style |}) st) ∧
    let parent := layout (dom st) in
    let imgRect := img_rect parent im in
    let containerRect := container_rect parent in
    style !! "left"
      = Some (num_to_string
                (num_add (num_sub (num_sub (rect_left imgRect)
                                           (rect_left containerRect))
                                  num_one)
                         (scrollLeft parent)) +:+ "px") ∧
    style !! "top"
      = Some (num_to_string
                (num_add (num_sub (rect_top imgRect) (rect_top containerRect))
                         (scrollTop parent)) +:+ "px") ∧
    style !! "width" = Some (num_to_string (rect_width imgRect) +:+ "px") ∧
    style !! "height" = Some (num_to_string (rect_height imgRect) +:+ "px") ∧
    ∀ prop, prop ∉ ["left"; "top"; "width"; "height"] →
            style !! prop = ov_style ov !! prop.
Proof.
  intros Ho Hi. eexists. split.
  - unfold repositionElements. unfold_m. rewrite Ho, Hi. reflexivity.
  - cbv zeta. unfold px. repeat split.
    + rewrite !lookup_insert_ne by done. by rewrite lookup_insert_eq.
    + rewrite !lookup_insert_ne by done. by rewrite lookup_insert_eq.
    + rewrite !lookup_insert_ne by done. by rewrite lookup_insert_eq.
    + by rewrite lookup_insert_eq.
    + intros prop Hprop. rewrite !lookup_insert_ne; [done|..];
        intros <-; apply Hprop; set_solver.
Qed.


(** C6.  Selecting image [B] in a reachable state, by a call of [show] or
    by a click on the image, extends the trace by one [onDestroy] call for
    every module live before, in their order, followed by the [onCreate]
    calls and then the [onUpdate] calls of the modules live afterwards:
    every teardown call comes before every setup call.  The modules live
    before are pairwise distinct objects, each is torn down exactly once
    in that extension, and none of them is live afterwards.  On a state
    with no live module [removeModules] returns normally and changes
    nothing. *)
Theorem teardown_before_setup st B :
  reachable st →
  (∀ m : M unit,
     m = show B ∨
     (∃ evt, image_target evt = Some B ∧
             m = handleClickInsideQuillInstance evt) →
     let st' := state_of (m st) in
     let added := (OnDestroy <$> modules st)
                  ++ (OnCreate <$> modules st')
                  ++ (OnUpdate <$> modules st') in
     trace st' = trace st ++ added ∧
     NoDup (modules st) ∧
     (∀ a, a ∈ modules st →
           length (filter (λ e, e = OnDestroy a) added) = 1 ∧
           a ∉ modules st')) ∧
  (modules st = [] → removeModules st = (Normal tt, st)).
Proof.
  intros Hr. pose proof (reachable_wf st Hr) as [Hatt _ _ Hfresh Hnd _].
  split; [|apply removeModules_empty].
  intros m Hm.
  assert (∃ r st', m st = (r, st') ∧ select_post st B r st')
    as (r & st' & -> & _ & _ & _ & Hb & _ & Htr & _).
  { destruct Hm as [->|(evt & Htarget & ->)].
    - by apply show_select_post.
    - by apply clickInside_select_post. }
  cbn [state_of snd]. split; [done|].
  assert (NoDup (modules st)) as Hnd' by (by eapply NoDup_fmap_1).
  split; [done|]. intros a Ha. split.
  - rewrite !filter_app, !length_app, (count_destroy a _ Hnd' Ha).
    by rewrite !no_destroy_in.
  - intros Ha'. rewrite Forall_forall in Hfresh, Hb.
    specialize (Hfresh a Ha). specialize (Hb a Ha'). lia.
Qed.


(** ** Deleting the selected image *)

Ltac eval_keys :=
  cbv [mbind M_bind modify modify_dom gets emit throw mret M_ret
       copyImageToClipboard drop async checkImage_resume
       img overlay modules dom host next_id trace moduleClasses overlayStyles
       set_img set_overlay set_modules set_dom set_host set_next_id set_trace
       document quill_selection].

Lemma delete_then_hide st im :
  wf st → img st = Some im → im ∈ document (host st) →
  ∃ st1,
    ((i ← gets img; deleteImage i);; hide) st = (Normal tt, st1) ∧
    deselected st1 ∧
    document (host st1) = filter (λ e, e ≠ im) (document (host st)) ∧
    trace st1 = trace st ++ (OnDestroy <$> modules st).
Proof.
  intros [Hatt _ _ _ _ _] Hi Hin.
  unfold mbind at 1, M_bind at 1. unfold mbind at 1, M_bind at 1.
  unfold gets at 1. rewrite Hi. unfold deleteImage, mbind, M_bind, gets.
  rewrite decide_True by done. unfold modify.
  match goal with
  | |- context [hide ?s] =>
      destruct (hide_spec s) as (st1 & -> & Hi1 & Ho1 & Hm1 & Ha1 & Ht1 & _
                                 & Hh1 & _)
  end.
  { by eapply overlay_attached_ext; [| |exact Hatt]. }
  exists st1. split; [done|]. split; [done|]. by rewrite Hh1.
Qed.

Lemma chord_exclusive evt :
  is_chord evt "x" = true → is_chord evt "c" = false.
Proof.
  unfold is_chord. intros [_ Hx]%andb_true_iff.
  apply String.eqb_eq in Hx. rewrite Hx. apply andb_false_r.
Qed.

(** A cut whose clipboard write is fulfilled goes on, after the [await],
    with the deletion and [hide]. *)
Lemma keyup_cut_fulfilled st evt im :
  img st = Some im → is_delete_key evt = false → is_chord evt "x" = true →
  keyup evt WriteFulfilled st
  = async ((i ← gets img; deleteImage i);; hide)
          (set_trace (trace st ++ [PreventDefault]) st).
Proof.
  intros Hi Hkey Hx. unfold keyup, checkImage.
  unfold async, mbind at 1, M_bind at 1.
  unfold mbind at 1, M_bind at 1, gets at 1.
  rewrite Hi, Hkey, (chord_exclusive evt Hx), Hx.
  destruct_state st. eval_fields. subst.
  cbv [mbind M_bind gets emit modify mret M_ret copyImageToClipboard
       checkImage_resume img trace set_trace].
  reflexivity.
Qed.

Lemma filter_not_elem (im : Element) (doc : list Element) :
  im ∉ filter (λ e, e ≠ im) doc.
Proof. by intros [? _]%list_elem_of_filter. Qed.

(** What the rest of the handler adds once the Delete branch has
    deselected: the trace grows, by no module call, and nothing else
    changes. *)
Lemma keyup_after_delete st st1 evt b im :
  img st = Some im → is_delete_key evt = true →
  ((i ← gets img; deleteImage i);; hide) st = (Normal tt, st1) →
  img st1 = None →
  ∃ t, state_of (keyup evt b st) = set_trace (trace st1 ++ t) st1 ∧
       Forall (λ e, is_module_call e = false) t.
Proof.
  intros Hi Hkey Hrun Hi1. unfold keyup, checkImage.
  unfold async, mbind at 1, M_bind at 1.
  unfold mbind at 1, M_bind at 1, gets at 1. rewrite Hi, Hkey.
  unfold mbind at 1, M_bind at 1. rewrite Hrun.
  destruct_state st1. eval_fields. subst.
  destruct (is_chord evt "c"), (is_chord evt "x"); eval_keys;
    first [ exists []; split; [by rewrite app_nil_r|constructor]
          | eexists; split;
            [rewrite <- ?app_assoc; reflexivity|by repeat constructor] ].
Qed.

(** C9.  A keyup whose key code is that of Delete (46) or Backspace (8),
    in any state the instance gets into, whatever the events so far: when
    an image is selected and is still a node of the host document, the
    handler removes it from the document, calls [onDestroy] once on each
    live module and makes no other module call, and ends with no image, no
    overlay, no module and no attached overlay element; when no image is
    selected, the handler returns with the state exactly as it was. *)
Theorem delete_key_removes_image options defaults d h evs evt b :
  filter (λ n, is_overlay_node n = true) (children d) = [] →
  is_delete_key evt = true →
  let st := run evs (constructor options defaults d h) in
  (∀ im, img st = Some im → im ∈ document (host st) →
     let st' := state_of (keyup evt b st) in
     document (host st') = filter (λ e, e ≠ im) (document (host st)) ∧
     (im ∉ document (host st')) ∧
     deselected st' ∧
     ∃ t, trace st' = trace st ++ (OnDestroy <$> modules st) ++ t ∧
          Forall (λ e, is_module_call e = false) t) ∧
  (img st = None → keyup evt b st = (Normal tt, st)).
Proof.
  intros Hd Hkey st.
  assert (wf st) as Hwf by (by apply run_wf, wf_constructor).
  clearbody st. split.
  - intros im Hi Hin.
    destruct (delete_then_hide st im Hwf Hi Hin)
      as (st1 & Hrun & (Hi1 & Ho1 & Hm1 & Ha1) & Hdoc & Htr).
    destruct (keyup_after_delete st st1 evt b im Hi Hkey Hrun Hi1)
      as (t & Hst' & Ht).
    cbv zeta. rewrite Hst'.
    unfold deselected, attached_overlays in *. eval_fields.
    rewrite Hdoc, Htr. repeat split; try done; [apply filter_not_elem|].
    exists t. by rewrite <- app_assoc.
  - intros Hi. unfold keyup, checkImage, async. unfold_m. by rewrite Hi.
Qed.

(** The part of [checkImage] before its [await], on the cut chord: it
    prevents the default action and starts the export, and changes
    nothing of the selection, whatever becomes of the export. *)
Lemma cut_before_await st evt b :
  is_chord evt "x" = true → is_delete_key evt = false →
  selection (step (KeyUp evt b) st) = selection st.
Proof.
  intros Hx Hkey. pose proof (chord_exclusive evt Hx) as Hc.
  cbn [step]. unfold checkImage.
  unfold async, mbind at 1, M_bind at 1, gets at 1.
  destruct (img st) as [im|] eqn:Hi; [|done]. rewrite Hkey, Hc, Hx.
  destruct_state st. eval_fields. subst. by destruct b.
Qed.

(** C1.  A keyup of the cut chord (Ctrl or Cmd with x, on a key that is
    not Delete or Backspace) while an image is selected, in any state the
    instance gets into, whatever the events so far.  When the clipboard
    write is fulfilled, the image is still a node of the host document and
    the handler is carried through with no other event in between, the
    default action is prevented, the image is removed from the document,
    [onDestroy] is called once on each live module, and the handler ends
    with no image, no overlay, no module and no attached overlay element.
    When the export promise is rejected, by the clipboard write or by
    [toBlob], image, overlay, modules, DOM and host document are what they
    were; this is so of each half of the handler by itself: the part
    before the [await] leaves them alone whatever the export does, and so
    does the part after it on a rejected promise, in whatever state it
    resumes. *)
Theorem cut_deletes_only_after_export options defaults d h evs evt im :
  filter (λ n, is_overlay_node n = true) (children d) = [] →
  is_chord evt "x" = true → is_delete_key evt = false →
  let st := run evs (constructor options defaults d h) in
  img st = Some im →
  (im ∈ document (host st) →
   let st' := state_of (keyup evt WriteFulfilled st) in
   document (host st') = filter (λ e, e ≠ im) (document (host st)) ∧
   (im ∉ document (host st')) ∧
   deselected st' ∧
   trace st' = trace st ++ PreventDefault :: (OnDestroy <$> modules st)) ∧
  (∀ b, b = ToBlobThrows ∨ (∃ name message, b = WriteRejected name message) →
     selection (state_of (keyup evt b st)) = selection st) ∧
  (∀ b, selection (step (KeyUp evt b) st) = selection st) ∧
  (∀ st2, selection (step (Resume Rejected) st2) = selection st2).
Proof.
  intros Hd Hx Hkey st Hi.
  assert (wf st) as Hwf by (by apply run_wf, wf_constructor).
  clearbody st. pose proof (chord_exclusive evt Hx) as Hc.
  split; [|split; [|split]].
  - intros Hin.
    set (st0 := set_trace (trace st ++ [PreventDefault]) st).
    assert (wf st0) as Hwf0 by (by eapply wf_ext; [| | | | |exact Hwf]).
    destruct (delete_then_hide st0 im Hwf0 Hi Hin)
      as (st1 & Hrun & (Hi1 & Ho1 & Hm1 & Ha1) & Hdoc & Htr).
    rewrite (keyup_cut_fulfilled st evt im Hi Hkey Hx). fold st0.
    unfold async. rewrite Hrun. cbn [state_of snd].
    rewrite Hdoc, Htr. repeat split; try done; [apply filter_not_elem|].
    subst st0. destruct_state st. eval_fields. by rewrite <- app_assoc.
  - intros b Hb. unfold keyup, checkImage.
    unfold async, mbind at 1, M_bind at 1.
    unfold mbind at 1, M_bind at 1, gets at 1. rewrite Hi, Hkey, Hc, Hx.
    clear Hwf. destruct_state st. eval_fields. subst.
    destruct Hb as [->|(name & message & ->)]; reflexivity.
  - intros b. by apply cut_before_await.
  - intros st2. cbn [step checkImage_resume]. unfold async, throw.
    by destruct_state st2.
Qed.

(** C2.  A deselect while an overlay is shown, in a reachable state, and
    in particular the one made by a click outside the editor root: the
    overlay element is removed and the keyup listener of the container is
    gone, but the capturing click listener that [showOverlay] installed on
    the window is still installed. *)
Theorem window_listener_survives_hide st :
  reachable st → overlay st ≠ None →
  (∀ evt, ce_in_root evt = false →
          handleClickOutsideQuillInstance evt st = hide st) ∧
  let st' := state_of (hide st) in
  overlay st' = None ∧ attached_overlays st' = [] ∧
  (container_keyup ∉ listeners (dom st')) ∧
  (window_click ∈ listeners (dom st')).
Proof.
  intros Hr Ho. pose proof (reachable_wf st Hr) as [Hatt _ _ _ _ Hw].
  split.
  { intros evt Hout. unfold handleClickOutsideQuillInstance.
    by rewrite Hout. }
  destruct (hide_spec st Hatt)
    as (st1 & -> & _ & Ho1 & _ & Ha1 & _ & _ & _ & _ & _ & _ & Hl1).
  cbn [state_of snd]. split; [done|]. split; [done|].
  destruct (overlay st) as [ov|]; [|done]. rewrite Hl1. split.
  - by intros [? _]%list_elem_of_filter.
  - apply list_elem_of_filter. split; [done|]. by apply Hw.
Qed.

(** C5.  A keyup of the copy chord or of the cut chord (on a key that is
    not Delete or Backspace) while an image is selected, when the export
    fails: the handler prevents the default action and ends in a rejection
    that nothing handles, whichever way the export fails; the alert is
    shown only when it is the clipboard write that is rejected.  Nothing
    but the trace changes. *)
Theorem export_failure_is_unhandled st evt im :
  img st = Some im → is_delete_key evt = false →
  is_chord evt "c" = true ∨ is_chord evt "x" = true →
  (∀ name message,
     keyup evt (WriteRejected name message) st
     = (Normal tt,
        set_trace
          (trace st ++
           [PreventDefault;
            Alert ("Error adding image to clipboard: " +:+ name
                   +:+ " -> " +:+ message);
            UnhandledRejection]) st)) ∧
  (∀ b, b = ToBlobThrows ∨ b = CallbackThrows ∨ b = DrawThrows →
     keyup evt b st
     = (Normal tt,
        set_trace (trace st ++ [PreventDefault; UnhandledRejection]) st)).
Proof.
  intros Hi Hkey Hchord.
  assert (is_chord evt "c" = true ∧ is_chord evt "x" = false ∨
          is_chord evt "c" = false ∧ is_chord evt "x" = true)
    as Hcases.
  { destruct Hchord as [Hc|Hx]; [left|right; by rewrite chord_exclusive].
    split; [done|]. destruct (is_chord evt "x") eqn:Hx; [|done].
    by rewrite chord_exclusive in Hc. }
  split; [intros name message|intros b Hb]; unfold keyup, checkImage;
    unfold async, mbind at 1, M_bind at 1;
    unfold mbind at 1, M_bind at 1, gets at 1; rewrite Hi, Hkey.
  - destruct Hcases as [[-> ->]|[-> ->]].
    all: destruct_state st; eval_fields; subst; eval_keys.
    all: unfold set_trace; eval_fields; by rewrite <- !app_assoc.
  - destruct Hcases as [[-> ->]|[-> ->]], Hb as [->|[->| ->]].
    all: destruct_state st; eval_fields; subst; eval_keys.
    all: unfold set_trace; eval_fields; by rewrite <- !app_assoc.
Qed.

End Properties.

(** * The claims on the concrete page *)

Lemma st_selected_reachable : reachable Example.st_selected.
Proof.
  apply (reach_step (ClickInside (Example.click_on Example.imgA))).
  - apply reach_init. reflexivity.
  - intros t Ht. vm_compute in Ht. injection Ht as <-.
    vm_compute. apply list_elem_of_here.
Defined.

Lemma st_selected_img : img Example.st_selected = Some Example.imgA.
Proof. vm_compute. reflexivity. Defined.

Lemma at_most_one_overlay_witness :
  reachable Example.st_selected ∧
  length (attached_overlays Example.st_selected) ≤ 1.
Proof.
  split; [exact st_selected_reachable|].
  exact (proj1 (proj2 (at_most_one_overlay Example.st_selected
                         st_selected_reachable))).
Defined.

Lemma hide_idempotent_witness :
  reachable Example.st_selected ∧
  ∃ st1, hide Example.st_selected = (Normal tt, st1) ∧
         hide st1 = (Normal tt, st1).
Proof.
  split; [exact st_selected_reachable|].
  exact (proj1 (hide_idempotent Example.st_selected st_selected_reachable)).
Defined.

Lemma reposition_without_selection_witness :
  (overlay Example.st_init = None ∨ img Example.st_init = None) ∧
  repositionElements Example.st_init = (Normal tt, Example.st_init).
Proof.
  split; [left; reflexivity|].
  exact (proj1 (reposition_without_selection Example.st_init
                  (or_introl eq_refl))).
Defined.

(** The image at (100, 50), 200 by 150, in a container at (20, 10)
    scrolled by (5, 0): left is 100 - 20 - 1 + 5 = 84. *)
Lemma reposition_style_witness :
  ∃ ov style,
    overlay Example.st_selected = Some ov ∧
    img Example.st_selected = Some Example.imgA ∧
    repositionElements Example.st_selected
      = (Normal tt,
         set_overlay (Some {| ov_id := ov_id ov; ov_style := style |})
                     Example.st_selected) ∧
    style !! "left" = Some "84px" ∧ style !! "top" = Some "40px" ∧
    style !! "width" = Some "200px" ∧ style !! "height" = Some "150px".
Proof.
  destruct (overlay Example.st_selected) as [ov|] eqn:Ho;
    [|vm_compute in Ho; discriminate Ho].
  destruct (reposition_style Example.st_selected ov Example.imgA Ho
              st_selected_img)
    as (style & Hrun & Hl & Ht & Hw & Hh & _).
  exists ov, style.
  split; [reflexivity|]. split; [exact st_selected_img|].
  split; [exact Hrun|]. repeat split; assumption.
Defined.

Lemma teardown_before_setup_witness :
  reachable Example.st_selected ∧
  let st' := state_of (show Example.imgB Example.st_selected) in
  trace st' = trace Example.st_selected
              ++ (OnDestroy <$> modules Example.st_selected)
              ++ (OnCreate <$> modules st') ++ (OnUpdate <$> modules st').
Proof.
  split; [exact st_selected_reachable|].
  exact (proj1 (proj1 (teardown_before_setup Example.st_selected
                         Example.imgB st_selected_reachable)
                      (show Example.imgB) (or_introl eq_refl))).
Defined.



Lemma st_selected_in_document :
  Example.imgA ∈ document (host Example.st_selected).
Proof. vm_compute. apply list_elem_of_here. Defined.

Lemma run_st_selected :
  run [ClickInside (Example.click_on Example.imgA)]
      (constructor Example.no_options Example.defaults Example.page_dom
                   Example.page_host)
  = Example.st_selected.
Proof. vm_compute. reflexivity. Defined.

Lemma delete_key_removes_image_witness :
  filter (λ n, is_overlay_node n = true) (children Example.page_dom) = [] ∧
  is_delete_key Example.key_delete = true ∧
  img Example.st_selected = Some Example.imgA ∧
  Example.imgA ∈ document (host Example.st_selected) ∧
  deselected
    (state_of (keyup Example.key_delete WriteFulfilled Example.st_selected)).
Proof.
  pose proof (delete_key_removes_image
                Example.no_options Example.defaults Example.page_dom
                Example.page_host
                [ClickInside (Example.click_on Example.imgA)]
                Example.key_delete WriteFulfilled eq_refl eq_refl) as H.
  cbv zeta in H.
  rewrite run_st_selected in H.
  destruct H as [H _].
  destruct (H Example.imgA st_selected_img st_selected_in_document)
    as (_ & _ & Hdes & _).
  split; [reflexivity|]. split; [reflexivity|].
  split; [exact st_selected_img|]. split; [exact st_selected_in_document|].
  exact Hdes.
Defined.

(** The first image is selected, then removed from the document by
    others; the Delete key then raises before [hide]: the image stays
    selected, with its overlay and its modules, and no [onDestroy] is
    called. *)
Lemma delete_key_removes_image_counterexample :
  let st := run [ClickInside (Example.click_on Example.imgA);
                 HostEdit [Example.imgB]] Example.st_init in
  let st' := state_of (keyup Example.key_delete WriteFulfilled st) in
  is_delete_key Example.key_delete = true ∧
  img st = Some Example.imgA ∧
  img st' = Some Example.imgA ∧
  overlay st' = overlay st ∧
  attached_overlays st' = [NOverlay 0] ∧
  length (modules st') = 3 ∧
  trace st' = trace st ++ [UnhandledRejection].
Proof. vm_compute. repeat split. Qed.

Lemma cut_deletes_only_after_export_witness :
  filter (λ n, is_overlay_node n = true) (children Example.page_dom) = [] ∧
  is_chord Example.key_cut "x" = true ∧
  is_delete_key Example.key_cut = false ∧
  img Example.st_selected = Some Example.imgA ∧
  Example.imgA ∈ document (host Example.st_selected) ∧
  deselected
    (state_of (keyup Example.key_cut WriteFulfilled Example.st_selected)) ∧
  selection (state_of (keyup Example.key_cut ToBlobThrows
                             Example.st_selected))
    = selection Example.st_selected.
Proof.
  pose proof (cut_deletes_only_after_export
                Example.no_options Example.defaults Example.page_dom
                Example.page_host
                [ClickInside (Example.click_on Example.imgA)]
                Example.key_cut Example.imgA eq_refl eq_refl eq_refl) as H.
  cbv zeta in H.
  rewrite run_st_selected in H.
  destruct (H st_selected_img) as (Hful & Hrej & _).
  destruct (Hful st_selected_in_document) as (_ & _ & Hdes & _).
  split; [reflexivity|]. split; [reflexivity|]. split; [reflexivity|].
  split; [exact st_selected_img|]. split; [exact st_selected_in_document|].
  split; [exact Hdes|]. apply Hrej. left. reflexivity.
Defined.

(** Two cuts whose export is fulfilled and that do not end as a cut
    should.  In the first the selected image has been removed from the
    document by others: the deletion raises and the image stays selected,
    overlay attached.  In the second a click selects the other image while
    the export is pending: when the handler resumes it deletes that other
    image, and the image that was cut is still in the document. *)
Lemma cut_deletes_only_after_export_counterexample :
  (let st := run [ClickInside (Example.click_on Example.imgA);
                  HostEdit [Example.imgB]] Example.st_init in
   let st' := state_of (keyup Example.key_cut WriteFulfilled st) in
   img st = Some Example.imgA ∧ img st' = Some Example.imgA ∧
   attached_overlays st' = [NOverlay 0] ∧ length (modules st') = 3) ∧
  (let st' := run [KeyUp Example.key_cut WriteFulfilled;
                   ClickInside (Example.click_on Example.imgB);
                   Resume (Fulfilled true)] Example.st_selected in
   img Example.st_selected = Some Example.imgA ∧
   document (host Example.st_selected) = [Example.imgA; Example.imgB] ∧
   document (host st') = [Example.imgA] ∧ img st' = None).
Proof. vm_compute. repeat split. Qed.

Lemma window_listener_survives_hide_witness :
  reachable Example.st_selected ∧
  overlay Example.st_selected ≠ None ∧
  window_click
    ∈ listeners (dom (state_of (handleClickOutsideQuillInstance
                                  Example.click_elsewhere
                                  Example.st_selected))).
Proof.
  assert (overlay Example.st_selected ≠ None) as Ho
    by (vm_compute; discriminate).
  split; [exact st_selected_reachable|]. split; [exact Ho|].
  destruct (window_listener_survives_hide Example.st_selected
              st_selected_reachable Ho)
    as (Hclick & _ & _ & _ & Hw).
  rewrite (Hclick Example.click_elsewhere eq_refl). exact Hw.
Defined.

Lemma export_failure_is_unhandled_witness :
  img Example.st_selected = Some Example.imgA ∧
  is_delete_key Example.key_copy = false ∧
  (is_chord Example.key_copy "c" = true ∨
   is_chord Example.key_copy "x" = true) ∧
  UnhandledRejection
    ∈ trace (state_of (keyup Example.key_copy
                         (WriteRejected "NotAllowedError"
                                        "Write permission denied.")
                         Example.st_selected)).
Proof.
  split; [exact st_selected_img|]. split; [reflexivity|].
  split; [left; reflexivity|].
  rewrite (proj1 (export_failure_is_unhandled Example.st_selected
                    Example.key_copy Example.imgA st_selected_img eq_refl
                    (or_introl eq_refl))
                 "NotAllowedError" "Write permission denied.").
  cbn [state_of snd trace set_trace]. apply elem_of_app. right.
  apply list_elem_of_further, list_elem_of_further, list_elem_of_here.
Defined.

(** ** The page at work *)

(** [toUpperCase] gives IMG on img, Img and on the name that starts with
    a dotless i; it does not on the name that starts with a capital I with
    a dot (U+0130, the bytes C4 B0) or on a longer name. *)
Example toUpperCase_names :
  toUpperCase_is_IMG "img" = true ∧ toUpperCase_is_IMG "Img" = true ∧
  toUpperCase_is_IMG
    (String (ascii_of_N 196) (String (ascii_of_N 177) "MG")) = true ∧
  toUpperCase_is_IMG
    (String (ascii_of_N 196) (String (ascii_of_N 176) "MG")) = false ∧
  toUpperCase_is_IMG "IMGS" = false ∧ toUpperCase_is_IMG "" = false.
Proof. repeat split. Qed.

Example resolve_names :
  resolve (ByName "Toolbar") = Some Toolbar ∧ resolve (ByName "Crop") = None.
Proof. split; reflexivity. Qed.

(** Clicking the second image while the first is selected: the three
    modules of the first are torn down, then those of the second are set
    up. *)
Example reselect_trace :
  let m1 := Build_Module DisplaySize 1 in
  let m2 := Build_Module Toolbar 2 in
  let m3 := Build_Module Resize 3 in
  let n1 := Build_Module DisplaySize 5 in
  let n2 := Build_Module Toolbar 6 in
  let n3 := Build_Module Resize 7 in
  trace (step (ClickInside (Example.click_on Example.imgB))
              Example.st_selected)
  = [OnCreate m1; OnCreate m2; OnCreate m3;
     OnUpdate m1; OnUpdate m2; OnUpdate m3;
     OnDestroy m1; OnDestroy m2; OnDestroy m3;
     OnCreate n1; OnCreate n2; OnCreate n3;
     OnUpdate n1; OnUpdate n2; OnUpdate n3].
Proof. vm_compute. reflexivity. Qed.

(** A click on the paragraph deselects, and leaves the listener on the
    window behind. *)
Example click_on_paragraph :
  let st' := step (ClickInside (Example.click_on Example.para))
                  Example.st_selected in
  img st' = None ∧ children (dom st') = [NRoot] ∧
  listeners (dom st')
  = [ {| l_target := Root; l_type := "click";
         l_handler := HandleClickInside; l_capture := false |};
      window_click ].
Proof. vm_compute. repeat split. Qed.

(** A module name that is not registered makes [show] raise after the
    overlay is up. *)
Example unknown_module_class :
  let st := constructor {| opt_modules := Some [ByName "Crop"];
                           opt_overlayStyles := ∅ |}
                        Example.defaults Example.page_dom Example.page_host in
  let r := show Example.imgA st in
  r.1 = Throw (TypeError "ModuleClass is not a constructor") ∧
  img r.2 = Some Example.imgA ∧ modules r.2 = [] ∧
  children (dom r.2) = [NRoot; NOverlay 0].
Proof. vm_compute. repeat split. Qed.

(** Outside the reachable states: once the selected image has been removed
    from the document by others, [Quill.find] does not locate it, the
    Delete key raises before [hide], and the selection stays. *)
Example removed_image_stays_selected :
  let st := step (HostEdit [Example.imgB]) Example.st_selected in
  let st' := state_of (keyup Example.key_delete WriteFulfilled st) in
  img st' = Some Example.imgA ∧ attached_overlays st' = [NOverlay 0] ∧
  last (trace st') = Some UnhandledRejection.
Proof. vm_compute. repeat split. Qed.

(** * Further properties of the class *)

Section Further.
Context {num : Type} `{!JsNumber num}.
#[local] Unset Default Proof Using.
Implicit Types (st : State (num:=num)) (ov : Overlay) (i : Element).

Ltac split_state st :=
  destruct st as [?mc ?os ?im ?ov ?ms [?ch ?ls ?rs ?hs ?cp ?ti ?fo ?ly]
                  [?qs ?doc] ?ni ?tr].

Ltac fields :=
  cbn [img overlay modules dom host next_id trace moduleClasses overlayStyles
       set_img set_overlay set_modules set_dom set_host set_next_id set_trace
       children listeners root_style html_style container_position
       container_tabIndex focus layout set_children set_listeners
       set_user_select_styles set_container_position set_tabIndex set_focus
       set_layout ov_id ov_style document quill_selection
       fmap option_fmap option_map state_of fst snd] in *.

Ltac run_m :=
  cbv [mbind M_bind modify modify_dom gets fresh emit throw setUserSelect
       forEach mret M_ret addEventListener removeEventListener appendChild
       repositionElements copyImageToClipboard drop async checkImage_resume
       img overlay modules dom host next_id trace moduleClasses overlayStyles
       set_img set_overlay set_modules set_dom set_host set_next_id set_trace
       children listeners root_style html_style container_position
       container_tabIndex focus layout set_children set_listeners
       set_user_select_styles set_container_position set_tabIndex set_focus
       set_layout ov_id ov_style document quill_selection].

(** ** Induction over the events

    A property of states holds in every reachable state as soon as it
    holds after the constructor and is kept by [show], [hide] and
    [onUpdate], by an entry in the trace that is not a module call, and by
    changes of the host and of the layout: every handler is made of
    these. *)
Section EventInduction.
Variable I : State (num:=num) → Prop.
Hypothesis I_show : ∀ i, maintains I (show i).
Hypothesis I_hide : maintains I hide.
Hypothesis I_onUpdate : maintains I onUpdate.
Hypothesis I_emit :
  ∀ st e, is_module_call e = false → I st →
          I (set_trace (trace st ++ [e]) st).
Hypothesis I_host : ∀ st h, I st → I (set_host h st).
Hypothesis I_layout : ∀ st l, I st → I (set_dom (set_layout l (dom st)) st).

Lemma maintains_ret {A} (a : A) : maintains I (mret a).
Proof. by intros st. Qed.

Lemma maintains_throw {A} e : maintains I (throw (A:=A) e).
Proof. by intros st. Qed.

Lemma maintains_gets {A} (f : State (num:=num) → A) : maintains I (gets f).
Proof. by intros st. Qed.

Lemma maintains_bind {A B} (m : M (num:=num) A) (f : A → M B) :
  preserves m → maintains I m → (∀ a, maintains I (f a)) →
  maintains I (m ≫= f).
Proof.
  intros Hp Hm Hf st Hwf HI. specialize (Hp st Hwf).
  specialize (Hm st Hwf HI). unfold mbind, M_bind.
  destruct (m st) as [[a|e] st1]; [|done]. by apply Hf.
Qed.

Lemma maintains_emit e : is_module_call e = false → maintains I (emit e).
Proof. intros He st _ HI. by apply I_emit. Qed.

Lemma maintains_async {A} (m : M (num:=num) A) :
  maintains I m → maintains I (async m).
Proof.
  intros Hm st Hwf HI. specialize (Hm st Hwf HI). unfold async.
  destruct (m st) as [[a|e] st1]; [done|]. by apply I_emit.
Qed.

Lemma maintains_deleteImage o : maintains I (deleteImage o).
Proof.
  intros st _ HI. unfold deleteImage, mbind, M_bind, gets, modify, throw.
  destruct o as [im|]; [|done]. case_decide; [|done]. by apply I_host.
Qed.

Lemma maintains_copy b : maintains I (copyImageToClipboard b).
Proof.
  unfold copyImageToClipboard.
  apply maintains_bind; [apply preserves_gets|apply maintains_gets|].
  intros [im|]; [|apply maintains_throw].
  destruct b; try apply maintains_throw; try apply maintains_ret.
  all: apply maintains_bind;
    [apply preserves_emit|by apply maintains_emit|];
    intros; apply maintains_ret.
Qed.

Lemma maintains_drop p : maintains I (drop p).
Proof. destruct p; try apply maintains_ret. by apply maintains_emit. Qed.

Lemma maintains_delete_hide :
  maintains I ((i ← gets img; deleteImage i);; hide).
Proof.
  apply maintains_bind; [| |intros; apply I_hide].
  - apply preserves_bind; [apply preserves_gets|].
    intros; apply preserves_deleteImage.
  - apply maintains_bind; [apply preserves_gets|apply maintains_gets|].
    intros; apply maintains_deleteImage.
Qed.

Lemma maintains_checkImage evt b : maintains I (checkImage evt b).
Proof.
  unfold checkImage.
  apply maintains_bind; [apply preserves_gets|apply maintains_gets|].
  intros [im|]; [|apply maintains_ret].
  apply maintains_bind.
  - destruct (is_delete_key evt);
      [apply preserves_delete_hide|apply preserves_ret].
  - destruct (is_delete_key evt);
      [apply maintains_delete_hide|apply maintains_ret].
  - intros _. apply maintains_bind.
    + destruct (is_chord evt "c"); [|apply preserves_ret].
      apply preserves_bind; [apply preserves_emit|]. intros _.
      apply preserves_bind; [apply preserves_copy|apply preserves_drop].
    + destruct (is_chord evt "c"); [|apply maintains_ret].
      apply maintains_bind;
        [apply preserves_emit|by apply maintains_emit|]. intros _.
      apply maintains_bind; [apply preserves_copy|apply maintains_copy|].
      apply maintains_drop.
    + intros _. destruct (is_chord evt "x"); [|apply maintains_ret].
      apply maintains_bind;
        [apply preserves_emit|by apply maintains_emit|]. intros _.
      apply maintains_bind; [apply preserves_copy|apply maintains_copy|].
      intros; apply maintains_ret.
Qed.

Lemma maintains_resume p : maintains I (checkImage_resume p).
Proof.
  destruct p as [[]| |]; simpl;
    try apply maintains_ret; try apply maintains_throw.
  apply maintains_delete_hide.
Qed.

Lemma maintains_step ev st : wf st → I st → I (step ev st).
Proof.
  intros Hwf HI. destruct ev; simpl.
  - by apply I_show.
  - by apply I_hide.
  - unfold handleClickInsideQuillInstance.
    apply maintains_bind; [apply preserves_hide|apply I_hide| |done|done].
    intros _. destruct (image_target evt);
      [apply I_show|apply maintains_ret].
  - unfold handleClickOutsideQuillInstance.
    destruct (negb (ce_in_root evt)); [by apply I_hide|done].
  - by apply maintains_async; [apply maintains_checkImage| |].
  - by apply maintains_async; [apply maintains_resume| |].
  - by apply I_onUpdate.
  - by apply I_layout.
  - by apply I_host.
Qed.

Lemma reachable_maintains :
  (∀ options defaults d h, I (constructor options defaults d h)) →
  ∀ st, reachable st → I st.
Proof.
  intros Hinit st. induction 1 as [options defaults d h Hd|ev st Hr IH _].
  - apply Hinit.
  - apply maintains_step; [by apply reachable_wf|done].
Qed.

End EventInduction.

(** ** The lifecycle of the modules *)

Lemma lifecycle_app m tr tr' :
  lifecycle m (tr ++ tr') = foldl (lifecycle_step m) (lifecycle m tr) tr'.
Proof. apply foldl_app. Qed.

Lemma replay_others (f : Module → Effect) m ph ms :
  (∀ m', m' ≠ m → lifecycle_step m (Some ph) (f m') = Some ph) →
  m ∉ ms →
  foldl (lifecycle_step m) (Some ph) (f <$> ms) = Some ph.
Proof.
  intros Hf. induction ms as [|a ms IH]; [done|].
  intros [Ha Hms]%not_elem_of_cons. rewrite fmap_cons. cbn [foldl].
  rewrite Hf by done. by apply IH.
Qed.

Lemma replay_no_destroy m ph ms :
  m ∉ ms →
  foldl (lifecycle_step m) (Some ph) (OnDestroy <$> ms) = Some ph.
Proof.
  apply replay_others. intros m' Hm'. simpl. by rewrite decide_False.
Qed.

Lemma replay_no_create m ph ms :
  m ∉ ms →
  foldl (lifecycle_step m) (Some ph) (OnCreate <$> ms) = Some ph.
Proof.
  apply replay_others. intros m' Hm'. simpl. by rewrite decide_False.
Qed.

Lemma replay_no_update m ph ms :
  m ∉ ms →
  foldl (lifecycle_step m) (Some ph) (OnUpdate <$> ms) = Some ph.
Proof.
  apply replay_others. intros m' Hm'. simpl. by rewrite decide_False.
Qed.

Lemma replay_destroy m ms :
  NoDup ms → m ∈ ms →
  foldl (lifecycle_step m) (Some Live) (OnDestroy <$> ms) = Some Dead.
Proof.
  induction ms as [|a ms IH]; intros Hnd Hin.
  - by apply elem_of_nil in Hin.
  - apply NoDup_cons in Hnd as [Ha Hnd]. simpl.
    destruct (decide (a = m)) as [->|Hne].
    + by apply replay_no_destroy.
    + apply IH; [done|]. apply elem_of_cons in Hin as [->|]; done.
Qed.

Lemma replay_create m ms :
  NoDup ms → m ∈ ms →
  foldl (lifecycle_step m) (Some Unborn) (OnCreate <$> ms) = Some Live.
Proof.
  induction ms as [|a ms IH]; intros Hnd Hin.
  - by apply elem_of_nil in Hin.
  - apply NoDup_cons in Hnd as [Ha Hnd]. simpl.
    destruct (decide (a = m)) as [->|Hne].
    + by apply replay_no_create.
    + apply IH; [done|]. apply elem_of_cons in Hin as [->|]; done.
Qed.

Lemma replay_update m ms :
  foldl (lifecycle_step m) (Some Live) (OnUpdate <$> ms) = Some Live.
Proof.
  induction ms as [|a ms IH]; [done|]. simpl. by case_decide.
Qed.

(** One teardown of the live modules followed by one setup of new ones. *)
Lemma lifecycle_ok_select st st' :
  Forall (λ m, mod_id m < next_id st) (modules st) →
  NoDup (modules st) →
  Forall (λ m, next_id st ≤ mod_id m ∧ mod_id m < next_id st')
         (modules st') →
  NoDup (modules st') →
  next_id st ≤ next_id st' →
  trace st' = trace st ++ (OnDestroy <$> modules st)
              ++ (OnCreate <$> modules st') ++ (OnUpdate <$> modules st') →
  lifecycle_ok st → lifecycle_ok st'.
Proof.
  intros Hold Hnd Hnew Hnd' Hle Htr Hok m.
  rewrite Forall_forall in Hold, Hnew.
  destruct (Hok m) as (ph & Hph & Hlive & Hfresh).
  rewrite Htr, lifecycle_app, Hph, !foldl_app.
  destruct (decide (m ∈ modules st)) as [Hin|Hout].
  - assert (ph = Live) as -> by (by apply Hlive).
    assert (m ∉ modules st') as Hout'.
    { intros Hin'. specialize (Hold m Hin). specialize (Hnew m Hin'). lia. }
    exists Dead. rewrite (replay_destroy m _ Hnd Hin).
    rewrite replay_no_create, replay_no_update by done.
    split; [done|]. split; [done|].
    intros Hge. specialize (Hold m Hin). lia.
  - rewrite replay_no_destroy by done.
    destruct (decide (m ∈ modules st')) as [Hin'|Hout'].
    + specialize (Hnew m Hin'). assert (ph = Unborn) as -> by (apply Hfresh; lia).
      exists Live. rewrite (replay_create m _ Hnd' Hin'), replay_update.
      split; [done|]. split; [done|]. lia.
    + exists ph. rewrite replay_no_create, replay_no_update by done.
      split; [done|]. split.
      * split; [intros ->; exfalso; by apply Hout, Hlive|done].
      * intros Hge. apply Hfresh. lia.
Qed.

Lemma lifecycle_ok_show i : maintains lifecycle_ok (show (num:=num) i).
Proof.
  intros st [Hatt _ _ Hfresh Hnd _] Hok.
  destruct (show_spec st i Hatt)
    as (r & st' & ov' & -> & _ & _ & _ & _ & _ & _ & _ & _ & _ & _
        & Hn & Hb & Hnd' & Hr).
  cbn [state_of snd]. apply (lifecycle_ok_select st st'); try done.
  - by eapply NoDup_fmap_1.
  - eapply Forall_impl; [exact Hb|]. simpl. intros; lia.
  - by eapply NoDup_fmap_1.
  - lia.
  - destruct r; [by destruct Hr|].
    destruct Hr as (Hm & -> & _). by rewrite Hm, !app_nil_r.
Qed.

Lemma lifecycle_ok_hide : maintains lifecycle_ok (hide (num:=num)).
Proof.
  intros st [Hatt _ _ Hfresh Hnd _] Hok.
  destruct (hide_spec st Hatt)
    as (st' & -> & _ & _ & Hm & _ & Ht & Hn & _).
  cbn [state_of snd]. apply (lifecycle_ok_select st st'); try done.
  - by eapply NoDup_fmap_1.
  - rewrite Hm. apply Forall_nil_2.
  - rewrite Hm. apply NoDup_nil_2.
  - lia.
  - by rewrite Ht, Hm, !app_nil_r.
Qed.

Lemma lifecycle_ok_onUpdate : maintains lifecycle_ok (onUpdate (num:=num)).
Proof.
  intros st _ Hok m.
  destruct (onUpdate_frame st)
    as (st' & -> & _ & _ & Hm & _ & _ & Ht & Hn & _).
  cbn [state_of snd]. destruct (Hok m) as (ph & Hph & Hlive & Hfresh).
  exists ph. rewrite Ht, lifecycle_app, Hph, Hm, Hn.
  split; [|done].
  destruct (decide (m ∈ modules st)) as [Hin|Hout].
  - assert (ph = Live) as -> by (by apply Hlive). apply replay_update.
  - by apply replay_no_update.
Qed.

Lemma lifecycle_ok_emit st e :
  is_module_call e = false → lifecycle_ok st →
  lifecycle_ok (set_trace (trace st ++ [e]) st).
Proof.
  intros He Hok m. destruct (Hok m) as (ph & Hph & Hrest).
  exists ph. split; [|done]. cbn [trace set_trace].
  rewrite lifecycle_app, Hph. by destruct e.
Qed.

Lemma reachable_lifecycle_ok st : reachable st → lifecycle_ok st.
Proof.
  apply reachable_maintains.
  - apply lifecycle_ok_show.
  - apply lifecycle_ok_hide.
  - apply lifecycle_ok_onUpdate.
  - apply lifecycle_ok_emit.
  - by intros st' h Hok.
  - by intros st' l Hok.
  - intros options defaults d h m. exists Unborn. simpl.
    split; [done|]. split; [|done]. split; [done|by intros ?%elem_of_nil].
Qed.

(** X1.  In every reachable state the trace calls every module in turn:
    [onCreate] once and first, [onUpdate] only between [onCreate] and
    [onDestroy], [onDestroy] at most once and last; and the live modules
    are exactly the ones that are created and not destroyed. *)
Theorem module_calls_in_turn st :
  reachable st →
  ∀ m, ∃ ph,
    lifecycle m (trace st) = Some ph ∧ (ph = Live ↔ m ∈ modules st).
Proof.
  intros Hr m. destruct (reachable_lifecycle_ok st Hr m) as (ph & H1 & H2 & _).
  by exists ph.
Qed.

(** ** What [showOverlay] and [hideOverlay] do to the page *)

Lemma showOverlay_page st :
  overlay st = None →
  ∃ st', showOverlay st = (Normal tt, st') ∧
    listeners (dom st')
      = add_listener container_keyup
          (add_listener window_click (listeners (dom st))) ∧
    children (dom st')
      = filter (λ c, c ≠ NOverlay (next_id st)) (children (dom st))
        ++ [NOverlay (next_id st)] ∧
    root_style (dom st')
      = <["msUserSelect" := "none"]>
          (<["webkitUserSelect" := "none"]>
            (<["mozUserSelect" := "none"]>
              (<["userSelect" := "none"]> (root_style (dom st))))) ∧
    html_style (dom st')
      = <["msUserSelect" := "none"]>
          (<["webkitUserSelect" := "none"]>
            (<["mozUserSelect" := "none"]>
              (<["userSelect" := "none"]> (html_style (dom st))))) ∧
    container_tabIndex (dom st') = Some 0%Z ∧
    focus (dom st') = Some NContainer ∧
    container_position (dom st') = container_position (dom st) ∧
    layout (dom st') = layout (dom st) ∧
    host st' = {| quill_selection := None;
                  document := document (host st) |} ∧
    overlay st'
      = Some {| ov_id := next_id st;
                ov_style :=
                  match img st with
                  | Some im =>
                      positioned (layout (dom st)) im (overlayStyles st ∪ ∅)
                  | None => overlayStyles st ∪ ∅
                  end |} ∧
    img st' = img st ∧ modules st' = modules st ∧ trace st' = trace st ∧
    next_id st' = S (next_id st) ∧ overlayStyles st' = overlayStyles st ∧
    moduleClasses st' = moduleClasses st.
Proof.
  intros Ho. split_state st. fields. subst.
  unfold showOverlay. destruct im; run_m; eexists; (split; [reflexivity|]);
    fields; by repeat split.
Qed.

Lemma hideOverlay_page st ov :
  overlay st = Some ov → NOverlay (ov_id ov) ∈ children (dom st) →
  ∃ st', hideOverlay st = (Normal tt, st') ∧
    listeners (dom st')
      = filter (λ l, l ≠ container_keyup) (listeners (dom st)) ∧
    children (dom st')
      = filter (λ c, c ≠ NOverlay (ov_id ov)) (children (dom st)) ∧
    root_style (dom st')
      = <["msUserSelect" := ""]>
          (<["webkitUserSelect" := ""]>
            (<["mozUserSelect" := ""]>
              (<["userSelect" := ""]> (root_style (dom st))))) ∧
    html_style (dom st')
      = <["msUserSelect" := ""]>
          (<["webkitUserSelect" := ""]>
            (<["mozUserSelect" := ""]>
              (<["userSelect" := ""]> (html_style (dom st))))) ∧
    container_tabIndex (dom st') = container_tabIndex (dom st) ∧
    focus (dom st') = focus (dom st) ∧
    container_position (dom st') = container_position (dom st) ∧
    layout (dom st') = layout (dom st) ∧
    host st' = host st ∧ overlay st' = None ∧
    img st' = img st ∧ modules st' = modules st ∧ trace st' = trace st ∧
    next_id st' = next_id st ∧ overlayStyles st' = overlayStyles st ∧
    moduleClasses st' = moduleClasses st.
Proof.
  intros Ho Hin. split_state st. fields. subst.
  unfold hideOverlay, mbind at 1, M_bind at 1, gets at 1. fields.
  unfold removeChild, mbind at 1, M_bind at 1.
  unfold mbind at 1, M_bind at 1, gets at 1. fields.
  rewrite decide_True by done. run_m.
  eexists; (split; [reflexivity|]); fields; by repeat split.
Qed.

Lemma user_select_lookup (value : string) (style : gmap string string) prop :
  prop ∈ user_select_props →
  (<["msUserSelect" := value]>
     (<["webkitUserSelect" := value]>
       (<["mozUserSelect" := value]>
         (<["userSelect" := value]> style)))) !! prop = Some value.
Proof.
  unfold user_select_props. rewrite !elem_of_cons, elem_of_nil.
  intros [->|[->|[->|[->|[]]]]];
    rewrite ?lookup_insert_ne by done; by rewrite lookup_insert_eq.
Qed.

Lemma user_select_lookup_other (value : string) (style : gmap string string)
    prop :
  prop ∉ user_select_props →
  (<["msUserSelect" := value]>
     (<["webkitUserSelect" := value]>
       (<["mozUserSelect" := value]>
         (<["userSelect" := value]> style)))) !! prop = style !! prop.
Proof.
  unfold user_select_props. intros Hprop.
  rewrite !lookup_insert_ne; [done|..]; intros <-; apply Hprop;
    rewrite !elem_of_cons; tauto.
Qed.

(** What [show] does to the page, whatever was shown before. *)
Lemma show_page st i :
  overlay_attached st →
  ∃ r st', show i st = (r, st') ∧
    (∀ l, l ≠ container_keyup → l ∈ listeners (dom st) →
          l ∈ listeners (dom st')) ∧
    container_keyup ∈ listeners (dom st') ∧
    container_tabIndex (dom st') = Some 0%Z ∧
    (∀ prop, prop ∈ user_select_props →
       root_style (dom st') !! prop = Some "none" ∧
       html_style (dom st') !! prop = Some "none") ∧
    (∃ ov', overlay st' = Some ov' ∧ ov_id ov' = next_id st) ∧
    next_id st < next_id st'.
Proof.
  intros Hatt. unfold show, mbind, M_bind, modify at 1.
  set (st0 := set_img (Some i) st).
  assert (∃ st1, showOverlay st0 = (Normal tt, st1) ∧
    (∀ l, l ≠ container_keyup → l ∈ listeners (dom st) →
          l ∈ listeners (dom st1)) ∧
    container_keyup ∈ listeners (dom st1) ∧
    container_tabIndex (dom st1) = Some 0%Z ∧
    (∀ prop, prop ∈ user_select_props →
       root_style (dom st1) !! prop = Some "none" ∧
       html_style (dom st1) !! prop = Some "none") ∧
    (∃ ov', overlay st1 = Some ov' ∧ ov_id ov' = next_id st) ∧
    next_id st1 = S (next_id st))
    as (st1 & -> & Hl & Hk & Hti & Hus & (ov1 & Ho1 & Hid1) & Hn1).
  { destruct (overlay st) as [ov|] eqn:Ho.
    - assert (overlay st0 = Some ov) as Ho0 by done.
      assert (NOverlay (ov_id ov) ∈ children (dom st0)) as Hin
        by (by apply (attached_elem st)).
      destruct (hideOverlay_page st0 ov Ho0 Hin)
        as (sth & Hrun & Hlh & _ & _ & _ & _ & _ & _ & _ & _ & Hoh & _ & _
            & _ & Hnh & _).
      assert (showOverlay st0 = showOverlay sth) as ->.
      { unfold showOverlay, mbind, M_bind, gets. rewrite Ho0, Hrun, Hoh.
        unfold mret, M_ret. reflexivity. }
      destruct (showOverlay_page sth Hoh)
        as (st1 & -> & Hl1 & _ & Hrs & Hhs & Hti & _ & _ & _ & _ & Ho1 & _
            & _ & _ & Hn1 & _).
      exists st1. split; [done|]. rewrite Hl1, Hlh, Hrs, Hhs, Ho1, Hn1, Hnh.
      repeat split; try done.
      + intros l Hne Hl. apply add_listener_mono, add_listener_mono.
        by apply list_elem_of_filter.
      + apply add_listener_elem.
      + by apply user_select_lookup.
      + by apply user_select_lookup.
      + by eexists.
    - assert (overlay st0 = None) as Ho0 by done.
      destruct (showOverlay_page st0 Ho0)
        as (st1 & -> & Hl1 & _ & Hrs & Hhs & Hti & _ & _ & _ & _ & Ho1 & _
            & _ & _ & Hn1 & _).
      exists st1. split; [done|]. rewrite Hl1, Hrs, Hhs, Ho1, Hn1.
      repeat split; try done.
      + intros l Hne Hl. by apply add_listener_mono, add_listener_mono.
      + apply add_listener_elem.
      + by apply user_select_lookup.
      + by apply user_select_lookup.
      + by eexists. }
  destruct (initializeModules_spec st1)
    as (r & st2 & -> & _ & Ho2 & Hd2 & _ & _ & _ & Hn2 & _).
  exists r, st2. split; [done|]. rewrite Hd2.
  repeat split; try done; try (by apply Hus); [|lia].
  rewrite Ho1 in Ho2. destruct (overlay st2) as [ov2|]; [|done].
  simpl in Ho2. injection Ho2 as Ho2. exists ov2. split; [done|]. lia.
Qed.

(** ** What holds while an overlay is shown *)

Lemma overlay_none_iff st st' :
  ov_id <$> overlay st' = ov_id <$> overlay st →
  overlay st' ≠ None → overlay st ≠ None.
Proof. destruct (overlay st), (overlay st'); simpl; congruence. Qed.

Lemma reachable_keyboard_ready st : reachable st → keyboard_ready st.
Proof.
  apply reachable_maintains.
  - intros i st' [Hatt _ _ _ _ _] [Hroot _].
    destruct (show_page st' i Hatt)
      as (r & st1 & -> & Hl & Hk & Hti & _).
    cbn [state_of snd]. split; [by apply Hl|done].
  - intros st' [Hatt _ _ _ _ _] [Hroot _].
    destruct (hide_spec st' Hatt)
      as (st1 & -> & _ & Ho & _ & _ & _ & _ & _ & _ & _ & _ & Hl).
    cbn [state_of snd]. split; [|by rewrite Ho].
    rewrite Hl. destruct (overlay st'); [|done].
    by apply list_elem_of_filter.
  - intros st' _ [Hroot Hshown].
    destruct (onUpdate_frame st')
      as (st1 & -> & _ & Ho & _ & Hd & _).
    cbn [state_of snd]. unfold keyboard_ready. rewrite Hd. split; [done|].
    intros Hne. apply Hshown. by eapply overlay_none_iff.
  - by intros st' e _ Hk.
  - by intros st' h Hk.
  - by intros st' l Hk.
  - intros options defaults d h. split; [|done]. simpl.
    apply add_listener_elem.
Qed.

Lemma reachable_text_selection_off st :
  reachable st → text_selection_off st.
Proof.
  apply reachable_maintains.
  - intros i st' [Hatt _ _ _ _ _] _.
    destruct (show_page st' i Hatt)
      as (r & st1 & -> & _ & _ & _ & Hus & _).
    cbn [state_of snd]. intros _. exact Hus.
  - intros st' [Hatt _ _ _ _ _] _.
    destruct (hide_spec st' Hatt) as (st1 & -> & _ & Ho & _).
    cbn [state_of snd]. intros Hne. by rewrite Ho in Hne.
  - intros st' _ Hoff.
    destruct (onUpdate_frame st')
      as (st1 & -> & _ & Ho & _ & Hd & _).
    cbn [state_of snd]. unfold text_selection_off. rewrite Hd.
    intros Hne. apply Hoff. by eapply overlay_none_iff.
  - by intros st' e _ Hk.
  - by intros st' h Hk.
  - by intros st' l Hk.
  - by intros options defaults d h.
Qed.

Lemma reachable_overlay_known st : reachable st → overlay_known st.
Proof.
  apply reachable_maintains.
  - intros i st' [Hatt _ _ _ _ _] _.
    destruct (show_page st' i Hatt)
      as (r & st1 & -> & _ & _ & _ & _ & (ov' & Ho & Hid) & Hn).
    cbn [state_of snd]. intros ov. rewrite Ho. intros [= <-]. lia.
  - intros st' [Hatt _ _ _ _ _] _.
    destruct (hide_spec st' Hatt) as (st1 & -> & _ & Ho & _).
    cbn [state_of snd]. intros ov. by rewrite Ho.
  - intros st' _ Hknown.
    destruct (onUpdate_frame st')
      as (st1 & -> & _ & Ho & _ & _ & _ & _ & Hn & _).
    cbn [state_of snd]. intros ov Hov. rewrite Hn.
    rewrite Hov in Ho. destruct (overlay st') as [ov0|] eqn:Ho0; [|done].
    simpl in Ho. injection Ho as ->. by apply Hknown.
  - by intros st' e _ Hk.
  - by intros st' h Hk.
  - by intros st' l Hk.
  - by intros options defaults d h ov.
Qed.

(** X2.  In every reachable state the click listener that the
    constructor put on the editor root is installed; and while an overlay
    is shown, the keyup listener is installed on the container and the
    container has tab index 0, so that key events reach [checkImage]. *)
Theorem keyboard_reaches_instance st :
  reachable st →
  root_click ∈ listeners (dom st) ∧
  (overlay st ≠ None →
   container_keyup ∈ listeners (dom st) ∧
   container_tabIndex (dom st) = Some 0%Z).
Proof. apply reachable_keyboard_ready. Qed.

(** X3.  While an overlay is shown, in every reachable state, the four
    user-select properties are "none" on the editor root and on the
    document element. *)
Theorem no_text_selection_while_selected st prop :
  reachable st → overlay st ≠ None → prop ∈ user_select_props →
  root_style (dom st) !! prop = Some "none" ∧
  html_style (dom st) !! prop = Some "none".
Proof. intros Hr Ho Hprop. by apply (reachable_text_selection_off st Hr). Qed.

(** ** Selecting and deselecting again *)

Lemma elem_of_add_listener (l l' : Listener) ls :
  l' ∈ add_listener l ls ↔ l' = l ∨ l' ∈ ls.
Proof.
  unfold add_listener. case_decide.
  - split; [by right|]. by intros [->|].
  - rewrite elem_of_app, list_elem_of_singleton. tauto.
Qed.

Lemma filter_append_removed (n : Node) (l : list Node) :
  n ∉ l → filter (λ c, c ≠ n) (filter (λ c, c ≠ n) l ++ [n]) = l.
Proof.
  intros Hn. rewrite filter_app, filter_cons.
  rewrite decide_False by (intros H; by apply H).
  rewrite filter_nil, app_nil_r.
  assert (filter (λ c, c ≠ n) l = l) as Hl.
  { induction l as [|a l IH]; [done|].
    apply not_elem_of_cons in Hn as [Ha Hl].
    rewrite filter_cons, decide_True by done. by rewrite IH. }
  by rewrite !Hl.
Qed.

Lemma no_overlay_child st n :
  attached_overlays st = [] → NOverlay n ∉ children (dom st).
Proof.
  unfold attached_overlays. intros Hatt Hin.
  apply (not_elem_of_nil (NOverlay n)). rewrite <- Hatt.
  apply list_elem_of_filter. split; [reflexivity|exact Hin].
Qed.

(** X4.  From a reachable state with no image selected, [show] followed
    by [hide] returns normally and gives the page back: the children of
    the container and the host document are what they were and nothing is
    selected; what stays behind is the window click listener, tab index 0
    on the container, the cleared text selection of the editor, and the
    four user-select properties, now set to the empty string, on the
    editor root and on the document element; every other style property
    and every other listener is as before. *)
Theorem show_then_hide st i :
  reachable st → img st = None →
  ∃ st', hide (state_of (show i st)) = (Normal tt, st') ∧
    children (dom st') = children (dom st) ∧
    img st' = None ∧ overlay st' = None ∧ modules st' = [] ∧
    document (host st') = document (host st) ∧
    quill_selection (host st') = None ∧
    container_tabIndex (dom st') = Some 0%Z ∧
    (∀ l, l ∈ listeners (dom st') ↔
          l ≠ container_keyup ∧ (l = window_click ∨ l ∈ listeners (dom st))) ∧
    (∀ prop,
       root_style (dom st') !! prop
       = if decide (prop ∈ user_select_props) then Some ""
         else root_style (dom st) !! prop) ∧
    (∀ prop,
       html_style (dom st') !! prop
       = if decide (prop ∈ user_select_props) then Some ""
         else html_style (dom st) !! prop).
Proof.
  intros Hr Hi. pose proof (reachable_wf st Hr) as [Hatt Hio _ _ _ _].
  assert (overlay st = None) as Ho by (by apply Hio).
  assert (attached_overlays st = []) as Hnone
    by (unfold overlay_attached in Hatt; by rewrite Ho in Hatt).
  unfold show, mbind, M_bind, modify at 1.
  set (st0 := set_img (Some i) st).
  destruct (showOverlay_page st0 Ho)
    as (st1 & -> & Hl1 & Hch1 & Hrs1 & Hhs1 & Hti1 & _ & _ & _ & Hh1 & Ho1
        & _).
  destruct (initializeModules_spec st1)
    as (r & st2 & -> & _ & Ho2 & Hd2 & Hh2 & _).
  assert (∃ ov2, overlay st2 = Some ov2 ∧ ov_id ov2 = next_id st)
    as (ov2 & Hov2 & Hid2).
  { rewrite Ho1 in Ho2. destruct (overlay st2) as [ov2|]; [|done].
    simpl in Ho2. injection Ho2 as Ho2. by exists ov2. }
  assert (NOverlay (ov_id ov2) ∈ children (dom st2)) as Hin.
  { rewrite Hd2, Hch1, Hid2. apply elem_of_app. right.
    apply list_elem_of_here. }
  destruct (hideOverlay_page st2 ov2 Hov2 Hin)
    as (st3 & Hrun3 & Hl3 & Hch3 & Hrs3 & Hhs3 & Hti3 & _ & _ & _ & Hh3
        & Ho3 & _).
  eexists. split.
  { destruct r; cbn [state_of snd]; unfold hide, mbind, M_bind;
      rewrite Hrun3, removeModules_run; reflexivity. }
  fields. rewrite Hch3, Ho3, Hh3, Hti3, Hl3, Hrs3, Hhs3, Hd2, Hh2.
  rewrite Hch1, Hid2, Hh1, Hti1, Hl1, Hrs1, Hhs1.
  split; [by apply filter_append_removed, (no_overlay_child st)|].
  do 6 (split; [done|]). split; [|split].
  - intros l. split.
    + intros [Hne Hl]%list_elem_of_filter. split; [done|].
      apply elem_of_add_listener in Hl as [->|Hl]; [done|].
      by apply elem_of_add_listener in Hl.
    + intros [Hne Hl]. apply list_elem_of_filter. split; [done|].
      apply elem_of_add_listener. right. by apply elem_of_add_listener.
  - intros prop. case_decide.
    + by apply user_select_lookup.
    + by rewrite !user_select_lookup_other.
  - intros prop. case_decide.
    + by apply user_select_lookup.
    + by rewrite !user_select_lookup_other.
Qed.

(** X5.  A click on an image while an overlay is shown, in a reachable
    state, replaces the overlay element: the overlay referenced afterwards
    is another element than the one before, it is a child of the
    container, and the old one is not; this is so also when the image
    clicked is the one already selected. *)
Theorem click_on_image_replaces_overlay st evt i ov :
  reachable st → overlay st = Some ov → image_target evt = Some i →
  let st' := state_of (handleClickInsideQuillInstance evt st) in
  ∃ ov', overlay st' = Some ov' ∧ ov_id ov' ≠ ov_id ov ∧
         (NOverlay (ov_id ov') ∈ children (dom st')) ∧
         (NOverlay (ov_id ov) ∉ children (dom st')).
Proof.
  intros Hr Ho Htarget. pose proof (reachable_wf st Hr) as [Hatt _ _ _ _ _].
  pose proof (reachable_overlay_known st Hr ov Ho) as Hknown.
  destruct (clickInside_run st evt Hatt)
    as (st1 & _ & Hdes & _ & Hn1 & _ & _ & ->).
  rewrite Htarget.
  destruct (show_spec st1 i (deselected_attached st1 Hdes))
    as (r & st' & ov' & -> & _ & Ho' & Hid & Ha & _).
  cbn [state_of snd]. exists ov'.
  assert (ov_id ov' ≠ ov_id ov) as Hne by lia.
  split; [done|]. split; [done|].
  unfold attached_overlays in Ha. split.
  - eapply (list_elem_of_filter (λ n, is_overlay_node n = true)).
    rewrite Ha, Hid. by apply list_elem_of_singleton.
  - intros Hin.
    assert (NOverlay (ov_id ov)
            ∈ filter (λ n, is_overlay_node n = true) (children (dom st')))
      as Hin' by (by apply list_elem_of_filter).
    rewrite Ha in Hin'. apply list_elem_of_singleton in Hin'.
    injection Hin' as Heq. lia.
Qed.

(** X6.  In a reachable state, and with no configured class being the
    name [constructor] (which [knownModules] inherits and which resolves
    to [Object]), [show] returns normally exactly when every configured
    module class resolves, to a registered name or to a constructor given
    directly; the live modules are then instances of the configured
    classes, one for each entry and in the configured order.  When a class
    does not resolve, [show] raises with the image selected and the
    overlay shown, but with no module live and no module set up: the trace
    has grown by the teardown of the old modules only. *)
Theorem show_needs_resolvable_classes st i :
  reachable st → ByName "constructor" ∉ moduleClasses st →
  ((show i st).1 = Normal tt ↔
   Forall (λ c, is_Some (resolve c)) (moduleClasses st)) ∧
  ((show i st).1 = Normal tt →
   Forall2 (λ c m, resolve c = Some (mod_ctor m))
           (moduleClasses st) (modules (show i st).2)) ∧
  ((show i st).1 ≠ Normal tt →
   img (show i st).2 = Some i ∧ overlay (show i st).2 ≠ None ∧
   modules (show i st).2 = [] ∧
   trace (show i st).2 = trace st ++ (OnDestroy <$> modules st)).
Proof.
  intros Hr _. pose proof (reachable_wf st Hr) as [Hatt _ _ _ _ _].
  destruct (show_spec st i Hatt)
    as (r & st' & ov' & -> & Hi & Ho & _ & _ & _ & _ & _ & _ & _ & _ & _ & _
        & _ & Hres).
  cbn [fst snd]. destruct r as [[]|e].
  - destruct Hres as [_ Hres]. split; [|split; [done|done]].
    split; [intros _|done].
    apply Forall_forall. intros c Hc.
    clear -Hres Hc. induction Hres as [|c0 m0 cs ms Hc0 _ IH].
    + by apply elem_of_nil in Hc.
    + apply elem_of_cons in Hc as [->|Hc]; [by eexists|by apply IH].
  - destruct Hres as (Hm & Ht & c & Hc & Hnone). split; [|split].
    + split; [done|]. intros Hall. rewrite Forall_forall in Hall.
      destruct (Hall c Hc) as [k Hk]. congruence.
    + done.
    + intros _. by rewrite Ho.
Qed.

(** ** The style of the overlay *)

Lemma positioned_other parent im (style : gmap string string) prop :
  prop ∉ geometry_props → positioned parent im style !! prop = style !! prop.
Proof.
  unfold geometry_props, positioned. intros Hprop. cbv zeta.
  rewrite !lookup_insert_ne; [done|..]; intros <-; apply Hprop;
    rewrite !elem_of_cons; tauto.
Qed.

Lemma positioned_geometry parent im (style : gmap string string) :
  let imgRect := img_rect parent im in
  let containerRect := container_rect parent in
  positioned parent im style !! "left"
    = Some (px (num_add (num_sub (num_sub (rect_left imgRect)
                                          (rect_left containerRect))
                                 num_one)
                        (scrollLeft parent))) ∧
  positioned parent im style !! "top"
    = Some (px (num_add (num_sub (rect_top imgRect) (rect_top containerRect))
                        (scrollTop parent))) ∧
  positioned parent im style !! "width" = Some (px (rect_width imgRect)) ∧
  positioned parent im style !! "height" = Some (px (rect_height imgRect)).
Proof.
  unfold positioned. cbv zeta. repeat split;
    rewrite ?lookup_insert_ne by done; by rewrite lookup_insert_eq.
Qed.

Lemma positioned_idem parent im (style : gmap string string) :
  positioned parent im (positioned parent im style)
  = positioned parent im style.
Proof.
  apply map_eq. intros prop.
  destruct (decide (prop ∈ geometry_props)) as [Hin|Hout].
  - destruct (positioned_geometry parent im style) as (Hl & Ht & Hw & Hh).
    destruct (positioned_geometry parent im (positioned parent im style))
      as (Hl' & Ht' & Hw' & Hh').
    unfold geometry_props in Hin.
    rewrite !elem_of_cons, elem_of_nil in Hin.
    destruct Hin as [->|[->|[->|[->|[]]]]]; congruence.
  - by rewrite !positioned_other.
Qed.

Lemma reposition_overlay st :
  overlay (state_of (repositionElements st))
  = match overlay st, img st with
    | Some ov, Some im =>
        Some {| ov_id := ov_id ov;
                ov_style := positioned (layout (dom st)) im (ov_style ov) |}
    | _, _ => overlay st
    end.
Proof.
  unfold repositionElements, mbind, M_bind, gets, modify, mret, M_ret.
  destruct (overlay st) eqn:Ho, (img st) eqn:Hi; cbn [state_of snd];
    unfold positioned; try reflexivity; by rewrite Ho.
Qed.

(** X7.  [repositionElements] is idempotent: a second call, with the
    layout unchanged, returns normally and leaves the state of the first
    call exactly as it is. *)
Theorem reposition_twice st :
  repositionElements (state_of (repositionElements st))
  = (Normal tt, state_of (repositionElements st)).
Proof.
  split_state st. destruct ov as [[oid ostyle]|], im as [im|];
    unfold repositionElements; run_m; cbv [state_of snd]; run_m;
    try reflexivity.
  pose proof (positioned_idem ly im ostyle) as Hidem.
  unfold positioned in Hidem. cbv zeta in Hidem.
  by rewrite Hidem.
Qed.

Lemma reposition_overlay_ext st st' :
  overlay st' = overlay st → img st' = img st →
  layout (dom st') = layout (dom st) →
  overlay (state_of (repositionElements st'))
  = overlay (state_of (repositionElements st)).
Proof. intros Ho Hi Hl. by rewrite !reposition_overlay, Ho, Hi, Hl. Qed.

Lemma onUpdate_overlay st :
  overlay (state_of (onUpdate st))
  = overlay (state_of (repositionElements st)).
Proof.
  unfold onUpdate, mbind, M_bind.
  destruct (repositionElements_frame st) as (st1 & -> & _).
  unfold gets. by rewrite forEach_emit.
Qed.

Lemma initializeModules_overlay st :
  ∃ r st', initializeModules st = (r, st') ∧
    (overlay st' = overlay st ∨
     overlay st' = overlay (state_of (repositionElements st))).
Proof.
  split_state st.
  unfold initializeModules, mbind, M_bind. rewrite removeModules_run.
  unfold gets at 1. fields.
  match goal with
  | |- context [construct mc ?s] =>
      destruct (construct_spec mc s) as (r & k & -> & _)
  end.
  unfold set_modules, set_trace, set_next_id in *. fields.
  destruct r as [ms'|e];
    [|do 2 eexists; split; [reflexivity|by left]].
  unfold modify, gets, set_modules. fields. rewrite forEach_emit.
  unfold set_trace. fields.
  match goal with
  | |- context [onUpdate ?s] =>
      pose proof (onUpdate_overlay s) as Hup;
      destruct (onUpdate s) as [c s2]
  end.
  do 2 eexists. split; [reflexivity|]. right.
  cbn [state_of snd] in Hup. rewrite Hup.
  by apply reposition_overlay_ext.
Qed.

(** The overlay that [show] makes, before the modules are set up. *)
Lemma showOverlay_style st i :
  overlay_attached st → img st = Some i →
  ∃ st1, showOverlay st = (Normal tt, st1) ∧
    overlay st1
    = Some {| ov_id := next_id st;
              ov_style := positioned (layout (dom st)) i
                                     (overlayStyles st ∪ ∅) |} ∧
    img st1 = Some i ∧ layout (dom st1) = layout (dom st).
Proof.
  intros Hatt Hi. destruct (overlay st) as [ov|] eqn:Ho.
  - destruct (hideOverlay_page st ov Ho (attached_elem st ov Hatt Ho))
      as (sth & Hrun & _ & _ & _ & _ & _ & _ & _ & Hly & _ & Hoh & Hih & _
          & _ & Hnh & Hsh & _).
    assert (showOverlay st = showOverlay sth) as ->.
    { unfold showOverlay, mbind, M_bind, gets. rewrite Ho, Hrun, Hoh.
      unfold mret, M_ret. reflexivity. }
    destruct (showOverlay_page sth Hoh)
      as (st1 & -> & _ & _ & _ & _ & _ & _ & _ & Hly1 & _ & Ho1 & Hi1 & _).
    exists st1. split; [done|].
    by rewrite Ho1, Hi1, Hly1, Hih, Hi, Hly, Hnh, Hsh.
  - destruct (showOverlay_page st Ho)
      as (st1 & -> & _ & _ & _ & _ & _ & _ & _ & Hly1 & _ & Ho1 & Hi1 & _).
    exists st1. split; [done|]. by rewrite Ho1, Hi1, Hly1, Hi.
Qed.

(** X8.  The overlay that [show] leaves, in a reachable state, carries
    the configured overlay styles: every style property other than left,
    top, width and height has the value that [overlayStyles] gives it (or
    none), and those four are the geometry of the image just selected,
    whatever [overlayStyles] says about them. *)
Theorem shown_overlay_style st i :
  reachable st →
  ∃ ov, overlay (state_of (show i st)) = Some ov ∧
    (∀ prop, prop ∉ geometry_props →
             ov_style ov !! prop = overlayStyles st !! prop) ∧
    let parent := layout (dom st) in
    let imgRect := img_rect parent i in
    let containerRect := container_rect parent in
    ov_style ov !! "left"
      = Some (px (num_add (num_sub (num_sub (rect_left imgRect)
                                            (rect_left containerRect))
                                   num_one)
                          (scrollLeft parent))) ∧
    ov_style ov !! "top"
      = Some (px (num_add (num_sub (rect_top imgRect)
                                   (rect_top containerRect))
                          (scrollTop parent))) ∧
    ov_style ov !! "width" = Some (px (rect_width imgRect)) ∧
    ov_style ov !! "height" = Some (px (rect_height imgRect)).
Proof.
  intros Hr. pose proof (reachable_wf st Hr) as [Hatt _ _ _ _ _].
  unfold show, mbind, M_bind, modify at 1.
  set (st0 := set_img (Some i) st).
  assert (overlay_attached st0) as Hatt0
    by (by eapply overlay_attached_ext; [| |exact Hatt]).
  destruct (showOverlay_style st0 i Hatt0 eq_refl)
    as (st1 & -> & Ho1 & Hi1 & Hly1).
  change (layout (dom st0)) with (layout (dom st)) in *.
  change (overlayStyles st0) with (overlayStyles st) in *.
  change (next_id st0) with (next_id st) in *.
  set (style := positioned (layout (dom st)) i (overlayStyles st ∪ ∅)).
  assert (overlay (state_of (initializeModules st1))
          = Some {| ov_id := next_id st; ov_style := style |}) as Ho2.
  { destruct (initializeModules_overlay st1) as (r & st2 & -> & [Ho2|Ho2]);
      cbn [state_of snd]; rewrite Ho2; [done|].
    rewrite reposition_overlay, Ho1, Hi1, Hly1. cbn [ov_id ov_style].
    unfold style. by rewrite positioned_idem. }
  eexists. split.
  { destruct (initializeModules st1) as [[[]|e] st2]; exact Ho2. }
  cbn [ov_style]. split.
  - intros prop Hprop. unfold style. rewrite positioned_other by done.
    by rewrite (right_id_L ∅ (∪)).
  - apply positioned_geometry.
Qed.

(** ** Keys *)

Lemma keyup_no_image st evt b : img st = None → keyup evt b st = (Normal tt, st).
Proof.
  intros Hi. unfold keyup, checkImage, async, mbind, M_bind, gets, mret, M_ret.
  by rewrite Hi.
Qed.

(** X9.  A keyup that is not Delete or Backspace leaves image, overlay,
    modules, DOM and host document as they are, in any state and whatever
    the clipboard does, unless it is the cut chord and the clipboard write
    is fulfilled: copying never deletes or deselects, and a cut whose
    export fails in any way, or never settles, deletes nothing. *)
Theorem only_a_fulfilled_cut_deletes st evt b :
  is_delete_key evt = false →
  is_chord evt "x" = false ∨ b ≠ WriteFulfilled →
  selection (state_of (keyup evt b st)) = selection st.
Proof.
  intros Hkey Hsafe. destruct (img st) as [im|] eqn:Hi;
    [|by rewrite keyup_no_image].
  unfold keyup, checkImage.
  unfold async, mbind at 1, M_bind at 1.
  unfold mbind at 1, M_bind at 1, gets at 1. rewrite Hi, Hkey.
  split_state st. fields. subst.
  destruct (is_chord evt "c"), (is_chord evt "x"), b, Hsafe as [Hx|Hb];
    try done; reflexivity.
Qed.

(** X10.  A keyup does nothing at all, not even prevent the default
    action, when no image is selected or when the key is neither Delete,
    Backspace nor one of the two chords; with an image selected, in a
    reachable state, a chord on another key than Delete or Backspace
    prevents the default action before anything else it does. *)
Theorem keyup_acts_on_its_keys_only st evt b :
  (img st = None ∨
   (is_delete_key evt = false ∧ is_chord evt "c" = false ∧
    is_chord evt "x" = false) →
   keyup evt b st = (Normal tt, st)) ∧
  (reachable st → img st ≠ None → is_delete_key evt = false →
   is_chord evt "c" = true ∨ is_chord evt "x" = true →
   ∃ t, trace (state_of (keyup evt b st)) = trace st ++ PreventDefault :: t).
Proof.
  split.
  - intros [Hi|(Hkey & Hc & Hx)]; [by apply keyup_no_image|].
    destruct (img st) as [im|] eqn:Hi; [|by apply keyup_no_image].
    unfold keyup, checkImage.
    unfold async, mbind at 1, M_bind at 1.
    unfold mbind at 1, M_bind at 1, gets at 1. rewrite Hi, Hkey, Hc, Hx.
    split_state st. reflexivity.
  - intros Hr Hi Hkey Hchord. destruct (img st) as [im|] eqn:Him; [|done].
    assert (is_chord evt "c" = true ∧ is_chord evt "x" = false ∨
            is_chord evt "c" = false ∧ is_chord evt "x" = true)
      as [[Hc Hx]|[Hc Hx]].
    { destruct Hchord as [Hc|Hx]; [left|right; by rewrite chord_exclusive].
      split; [done|]. destruct (is_chord evt "x") eqn:Hx; [|done].
      by rewrite chord_exclusive in Hc. }
    2: assert (b = WriteFulfilled ∨ b ≠ WriteFulfilled) as [->|Hb]
         by (destruct b; (by left) || (by right)).
    2: { set (st0 := set_trace (trace st ++ [PreventDefault]) st).
         assert (wf st0) as Hwf0.
         { by eapply wf_ext; [| | | | |exact (reachable_wf st Hr)]. }
         destruct (delete_then_hide st0 im Hwf0 Him
                     (reachable_valid st Hr im Him))
           as (st1 & Hrun & _ & _ & Ht).
         rewrite (keyup_cut_fulfilled st evt im Him Hkey Hx). fold st0.
         unfold async. rewrite Hrun. cbn [state_of snd]. rewrite Ht.
         exists (OnDestroy <$> modules st0).
         subst st0. split_state st. fields. by rewrite <- app_assoc. }
    all: unfold keyup, checkImage; unfold async, mbind at 1, M_bind at 1;
      unfold mbind at 1, M_bind at 1, gets at 1; rewrite Him, Hkey, Hc, Hx.
    all: clear Hr; split_state st; fields; subst.
    all: destruct b; try done; run_m; cbv [state_of snd]; fields;
      rewrite <- ?app_assoc; eexists; reflexivity.
Qed.


(** X12.  A Delete or Backspace keyup on a selected image that is not a
    node of the host document deletes nothing and deselects nothing: the
    deletion raises before [hide], whatever other keys are held, and the
    handler ends in a rejection that nothing handles. *)
Theorem delete_of_an_image_not_in_the_document st evt b im :
  img st = Some im → im ∉ document (host st) → is_delete_key evt = true →
  keyup evt b st
  = (Normal tt, set_trace (trace st ++ [UnhandledRejection]) st).
Proof.
  intros Hi Hout Hkey. unfold keyup, checkImage.
  unfold async, mbind at 1, M_bind at 1.
  unfold mbind at 1, M_bind at 1, gets at 1. rewrite Hi, Hkey.
  unfold mbind at 1, M_bind at 1. unfold mbind at 1, M_bind at 1.
  unfold mbind at 1, M_bind at 1. unfold gets at 1. rewrite Hi.
  unfold deleteImage, mbind at 1, M_bind at 1, gets at 1.
  by rewrite decide_False.
Qed.

(** ** What the events leave alone *)

Lemma step_options ev st :
  wf st →
  moduleClasses (step ev st) = moduleClasses st ∧
  overlayStyles (step ev st) = overlayStyles st.
Proof.
  intros Hwf.
  apply (maintains_step
           (λ s, moduleClasses s = moduleClasses st ∧
                 overlayStyles s = overlayStyles st)); try done.
  - intros i s [Hatt _ _ _ _ _] [Hc Hs].
    destruct (show_spec s i Hatt)
      as (r & s' & ov' & -> & _ & _ & _ & _ & _ & Hc' & Hs' & _).
    cbn [state_of snd]. by rewrite Hc', Hs'.
  - intros s [Hatt _ _ _ _ _] [Hc Hs].
    destruct (hide_spec s Hatt)
      as (s' & -> & _ & _ & _ & _ & _ & _ & _ & Hc' & Hs' & _).
    cbn [state_of snd]. by rewrite Hc', Hs'.
  - intros s _ [Hc Hs].
    destruct (onUpdate_frame s)
      as (s' & -> & _ & _ & _ & _ & _ & _ & _ & Hc' & Hs').
    cbn [state_of snd]. by rewrite Hc', Hs'.
Qed.

Lemma run_options evs st :
  wf st →
  moduleClasses (run evs st) = moduleClasses st ∧
  overlayStyles (run evs st) = overlayStyles st.
Proof.
  revert st. induction evs as [|ev evs IH]; intros st Hwf; [done|].
  change (run (ev :: evs) st) with (run evs (step ev st)).
  destruct (IH (step ev st) (wf_step ev st Hwf)) as [-> ->].
  by apply step_options.
Qed.

(** X13.  The options are settled by the constructor and no event changes
    them afterwards: whatever events an instance has handled, its module
    classes are the array given in the options, taken whole, or the
    default ones when none is given, and each overlay style is the one of
    the options when they give it and the default one otherwise. *)
Theorem options_are_settled_at_construction options defaults d h evs :
  filter (λ n, is_overlay_node n = true) (children d) = [] →
  let st := run evs (constructor options defaults d h) in
  moduleClasses st
  = match opt_modules options with
    | Some classes => classes
    | None => def_modules defaults
    end ∧
  ∀ prop, overlayStyles st !! prop
          = match opt_overlayStyles options !! prop with
            | Some v => Some v
            | None => def_overlayStyles defaults !! prop
            end.
Proof.
  intros Hd st.
  destruct (run_options evs _ (wf_constructor options defaults d h Hd))
    as [Hc Hs].
  subst st. rewrite Hc, Hs. split; [done|]. intros prop.
  cbn [constructor overlayStyles]. rewrite lookup_union.
  by destruct (opt_overlayStyles options !! prop),
              (def_overlayStyles defaults !! prop).
Qed.

(** X14.  Only the keyboard makes the instance edit the document: a
    selection, a deselection, a click inside or outside the editor root, an
    update and a new layout all leave the nodes of the host document as
    they are, in every reachable state. *)
Theorem only_keys_edit_the_document ev st :
  reachable st →
  match ev with
  | KeyUp _ _ | Resume _ | HostEdit _ => True
  | _ => document (host (step ev st)) = document (host st)
  end.
Proof.
  intros Hr. pose proof (reachable_wf st Hr) as Hwf.
  assert (∀ s : State (num:=num), wf s →
            document (host (state_of (hide s))) = document (host s))
    as Hhide.
  { intros s [Hatt _ _ _ _ _].
    destruct (hide_spec s Hatt)
      as (s' & -> & _ & _ & _ & _ & _ & _ & Hh & _).
    cbn [state_of snd]. by rewrite Hh. }
  assert (∀ i (s : State (num:=num)), wf s →
            document (host (state_of (show i s))) = document (host s))
    as Hshow.
  { intros i s [Hatt _ _ _ _ _].
    destruct (show_spec s i Hatt)
      as (r & s' & ov' & -> & _ & _ & _ & _ & Hdoc & _).
    by cbn [state_of snd]. }
  destruct ev as [i| |evt|evt|evt b|p| |l|doc]; try done; cbn [step].
  - by apply Hshow.
  - by apply Hhide.
  - unfold handleClickInsideQuillInstance, mbind, M_bind.
    pose proof (preserves_hide st Hwf) as Hwf1. specialize (Hhide st Hwf).
    destruct (hide st) as [[[]|e] st1]; [|done]. cbn [state_of snd] in *.
    destruct (image_target evt) as [i|]; [|done].
    by rewrite Hshow.
  - unfold handleClickOutsideQuillInstance.
    destruct (negb (ce_in_root evt)); [by apply Hhide|done].
  - destruct (onUpdate_frame st)
      as (s' & -> & _ & _ & _ & _ & Hh & _).
    cbn [state_of snd]. by rewrite Hh.
Qed.

End Further.

(** * The further properties on the concrete page *)

Lemma st_init_reachable : reachable Example.st_init.
Proof. apply reach_init. reflexivity. Defined.

Lemma st_init_img : img Example.st_init = None.
Proof. reflexivity. Defined.

Lemma st_selected_overlay : overlay Example.st_selected ≠ None.
Proof. vm_compute. discriminate. Defined.

Lemma module_calls_in_turn_witness :
  reachable Example.st_selected ∧
  ∃ ph, lifecycle (Build_Module Toolbar 2) (trace Example.st_selected)
        = Some ph ∧
        (ph = Live ↔ Build_Module Toolbar 2 ∈ modules Example.st_selected).
Proof.
  split; [exact st_selected_reachable|].
  exact (module_calls_in_turn Example.st_selected st_selected_reachable
           (Build_Module Toolbar 2)).
Defined.

Lemma keyboard_reaches_instance_witness :
  reachable Example.st_selected ∧ overlay Example.st_selected ≠ None ∧
  container_keyup ∈ listeners (dom Example.st_selected) ∧
  container_tabIndex (dom Example.st_selected) = Some 0%Z.
Proof.
  split; [exact st_selected_reachable|]. split; [exact st_selected_overlay|].
  exact (proj2 (keyboard_reaches_instance Example.st_selected
                  st_selected_reachable)
               st_selected_overlay).
Defined.

Lemma no_text_selection_while_selected_witness :
  reachable Example.st_selected ∧ overlay Example.st_selected ≠ None ∧
  "userSelect" ∈ user_select_props ∧
  root_style (dom Example.st_selected) !! "userSelect" = Some "none" ∧
  html_style (dom Example.st_selected) !! "userSelect" = Some "none".
Proof.
  assert ("userSelect" ∈ user_select_props) as Hin
    by apply list_elem_of_here.
  split; [exact st_selected_reachable|]. split; [exact st_selected_overlay|].
  split; [exact Hin|].
  exact (no_text_selection_while_selected Example.st_selected "userSelect"
           st_selected_reachable st_selected_overlay Hin).
Defined.

Lemma show_then_hide_witness :
  reachable Example.st_init ∧ img Example.st_init = None ∧
  ∃ st', hide (state_of (show Example.imgA Example.st_init))
         = (Normal tt, st') ∧
         children (dom st') = children (dom Example.st_init).
Proof.
  split; [exact st_init_reachable|]. split; [exact st_init_img|].
  destruct (show_then_hide Example.st_init Example.imgA st_init_reachable
              st_init_img)
    as (st' & Hrun & Hch & _).
  exists st'. split; [exact Hrun|exact Hch].
Defined.

Lemma click_on_image_replaces_overlay_witness :
  reachable Example.st_selected ∧
  image_target (Example.click_on Example.imgA) = Some Example.imgA ∧
  ∃ ov ov',
    overlay Example.st_selected = Some ov ∧
    overlay (state_of (handleClickInsideQuillInstance
                         (Example.click_on Example.imgA)
                         Example.st_selected)) = Some ov' ∧
    ov_id ov' ≠ ov_id ov.
Proof.
  split; [exact st_selected_reachable|]. split; [reflexivity|].
  destruct (overlay Example.st_selected) as [ov|] eqn:Ho;
    [|vm_compute in Ho; discriminate Ho].
  destruct (click_on_image_replaces_overlay Example.st_selected
              (Example.click_on Example.imgA) Example.imgA ov
              st_selected_reachable Ho eq_refl)
    as (ov' & Ho' & Hne & _).
  exists ov, ov'. split; [reflexivity|]. split; [exact Ho'|exact Hne].
Defined.

Lemma show_needs_resolvable_classes_witness :
  reachable Example.st_selected ∧
  (ByName "constructor" ∉ moduleClasses Example.st_selected) ∧
  ((show Example.imgB Example.st_selected).1 = Normal tt ↔
   Forall (λ c, is_Some (resolve c)) (moduleClasses Example.st_selected)).
Proof.
  assert (ByName "constructor" ∉ moduleClasses Example.st_selected) as Hc.
  { intros Hin. vm_compute in Hin.
    repeat (inversion Hin as [|? ? ? Hin']; clear Hin; rename Hin' into Hin). }
  split; [exact st_selected_reachable|]. split; [exact Hc|].
  exact (proj1 (show_needs_resolvable_classes Example.st_selected
                  Example.imgB st_selected_reachable Hc)).
Defined.

Lemma shown_overlay_style_witness :
  reachable Example.st_init ∧
  ∃ ov, overlay (state_of (show Example.imgA Example.st_init)) = Some ov ∧
        ov_style ov !! "left" = Some "84px" ∧
        ov_style ov !! "height" = Some "150px".
Proof.
  split; [exact st_init_reachable|].
  destruct (shown_overlay_style Example.st_init Example.imgA
              st_init_reachable)
    as (ov & Ho & _ & Hl & _ & _ & Hh).
  exists ov. split; [exact Ho|]. split; [exact Hl|exact Hh].
Defined.

Lemma only_a_fulfilled_cut_deletes_witness :
  is_delete_key Example.key_copy = false ∧
  (is_chord Example.key_copy "x" = false ∨ WriteFulfilled ≠ WriteFulfilled) ∧
  selection (state_of (keyup Example.key_copy WriteFulfilled
                             Example.st_selected))
  = selection Example.st_selected.
Proof.
  split; [reflexivity|]. split; [left; reflexivity|].
  exact (only_a_fulfilled_cut_deletes Example.st_selected Example.key_copy
           WriteFulfilled eq_refl (or_introl eq_refl)).
Defined.

Lemma keyup_acts_on_its_keys_only_witness :
  (img Example.st_init = None ∧
   keyup Example.key_cut WriteFulfilled Example.st_init
   = (Normal tt, Example.st_init)) ∧
  (reachable Example.st_selected ∧ img Example.st_selected ≠ None ∧
   is_delete_key Example.key_cut = false ∧
   is_chord Example.key_cut "x" = true ∧
   ∃ t, trace (state_of (keyup Example.key_cut ToBlobThrows
                               Example.st_selected))
        = trace Example.st_selected ++ PreventDefault :: t).
Proof.
  assert (img Example.st_selected ≠ None) as Hi
    by (vm_compute; discriminate).
  split.
  - split; [exact st_init_img|].
    exact (proj1 (keyup_acts_on_its_keys_only Example.st_init
                    Example.key_cut WriteFulfilled)
                 (or_introl st_init_img)).
  - split; [exact st_selected_reachable|]. split; [exact Hi|].
    split; [reflexivity|]. split; [reflexivity|].
    exact (proj2 (keyup_acts_on_its_keys_only Example.st_selected
                    Example.key_cut ToBlobThrows)
                 st_selected_reachable Hi eq_refl (or_intror eq_refl)).
Defined.


Lemma delete_of_an_image_not_in_the_document_witness :
  let st := step (HostEdit [Example.imgB]) Example.st_selected in
  img st = Some Example.imgA ∧ (Example.imgA ∉ document (host st)) ∧
  is_delete_key Example.key_delete = true ∧
  keyup Example.key_delete WriteFulfilled st
  = (Normal tt, set_trace (trace st ++ [UnhandledRejection]) st).
Proof.
  intros st.
  assert (img st = Some Example.imgA) as Hi by (vm_compute; reflexivity).
  assert (Example.imgA ∉ document (host st)) as Hout.
  { intros Hin. vm_compute in Hin.
    inversion Hin as [|? ? ? Hin']; inversion Hin'. }
  split; [exact Hi|]. split; [exact Hout|]. split; [reflexivity|].
  exact (delete_of_an_image_not_in_the_document st Example.key_delete
           WriteFulfilled Example.imgA Hi Hout eq_refl).
Defined.

Lemma options_are_settled_at_construction_witness :
  filter (λ n, is_overlay_node n = true) (children Example.page_dom) = [] ∧
  moduleClasses
    (run [ClickInside (Example.click_on Example.imgA); Deselect]
         (constructor Example.no_options Example.defaults Example.page_dom
                      Example.page_host))
  = def_modules Example.defaults.
Proof.
  split; [reflexivity|].
  exact (proj1 (options_are_settled_at_construction Example.no_options
                  Example.defaults Example.page_dom Example.page_host
                  [ClickInside (Example.click_on Example.imgA); Deselect]
                  eq_refl)).
Defined.

Lemma only_keys_edit_the_document_witness :
  reachable Example.st_selected ∧
  document (host (step (ClickInside (Example.click_on Example.imgB))
                       Example.st_selected))
  = document (host Example.st_selected).
Proof.
  split; [exact st_selected_reachable|].
  exact (only_keys_edit_the_document
           (ClickInside (Example.click_on Example.imgB)) Example.st_selected
           st_selected_reachable).
Defined.
